(** * PosixPing: raw ICMP echo prober (posix_ping.cpp)

    A shallow embedding of [PosixPing::calcChecksum],
    [PosixPing::sendEchoRequest] and [PosixPing::onReadyRead], followed by
    the properties of the latency prober stated over it.

    Conventions of the embedding.
    - Fixed-width C++ integers are [Z] with the wrap-around written out
      ([u8], [u16], [u32], [u64], [to_int]).
    - A buffer ([std::vector<uint8_t>], [std::array<quint8, 2048>]) is a
      [list Z] of bytes.  Every access through a pointer into the buffer is
      an effect: it is recorded in the trace as [MemLoad off] or [MemStore off],
      with [off] the byte offset from the start of the buffer.  A store
      outside the buffer is recorded and leaves the buffer as it is (it
      lands in memory that the model does not represent); a load outside
      the buffer is recorded and yields 0.
    - The member functions run in a state monad over the object and the
      buffer they work on; the monad also collects the events.
    - Logging ([qWarning]), the [receivedReply] signal and the system calls
      are events of the same trace; what the operating system answers
      ([gettimeofday], [setsockopt], [sendto], [recv]) is an input.
    - The build modelled is the production one ([UNIT_TEST] undefined). *)

From Stdlib Require Import ZArith List Bool Lia.
Import ListNotations.
Open Scope Z_scope.

(** ** Fixed-width integers *)

Definition u8 (x : Z) : Z := x mod 2 ^ 8.
Definition u16 (x : Z) : Z := x mod 2 ^ 16.
Definition u32 (x : Z) : Z := x mod 2 ^ 32.
Definition u64 (x : Z) : Z := x mod 2 ^ 64.

(** Conversion to [int] (32-bit two's complement). *)
Definition to_int (x : Z) : Z := (x + 2 ^ 31) mod 2 ^ 32 - 2 ^ 31.

Definition INT_MAX : Z := 2 ^ 31 - 1.

(** ** Byte order *)

Inductive endian : Type := LittleEndian | BigEndian.

(** Target operating system: selects [TimestampField] and the
    don't-fragment code path. *)
Inductive platform : Type := Linux | Mac.

(** [w] bytes of [v], least significant first. *)
Fixpoint bytes_le (w : nat) (v : Z) : list Z :=
  match w with
  | O => []
  | S w' => u8 v :: bytes_le w' (Z.shiftr v 8)
  end.

(** Value of a byte sequence read least significant byte first. *)
Fixpoint int_le (bs : list Z) : Z :=
  match bs with
  | [] => 0
  | b :: bs' => b + 256 * int_le bs'
  end.

(** In-memory representation of a [w]-byte integer field on the host. *)
Definition bytes_of (host : endian) (w : nat) (v : Z) : list Z :=
  match host with
  | LittleEndian => bytes_le w v
  | BigEndian => rev (bytes_le w v)
  end.

(** Value of an integer field stored as [bs] on the host. *)
Definition int_of (host : endian) (bs : list Z) : Z :=
  match host with
  | LittleEndian => int_le bs
  | BigEndian => int_le (rev bs)
  end.

Definition bswap16 (x : Z) : Z :=
  Z.lor (Z.shiftl (Z.land x 255) 8) (Z.land (Z.shiftr x 8) 255).

Definition bswap32 (x : Z) : Z :=
  Z.lor (Z.lor (Z.shiftl (Z.land x 255) 24)
               (Z.shiftl (Z.land (Z.shiftr x 8) 255) 16))
        (Z.lor (Z.shiftl (Z.land (Z.shiftr x 16) 255) 8)
               (Z.land (Z.shiftr x 24) 255)).

Definition htons (host : endian) (x : Z) : Z :=
  match host with LittleEndian => bswap16 x | BigEndian => x end.
Definition ntohs := htons.

Definition htonl (host : endian) (x : Z) : Z :=
  match host with LittleEndian => bswap32 x | BigEndian => x end.
Definition ntohl := htonl.

(** ** Buffers *)

Definition peek (m : list Z) (off : Z) : Z :=
  if off <? 0 then 0 else nth (Z.to_nat off) m 0.

Fixpoint replace (m : list Z) (n : nat) (v : Z) : list Z :=
  match m, n with
  | [], _ => []
  | _ :: t, O => v :: t
  | h :: t, S n' => h :: replace t n' v
  end.

Definition poke (m : list Z) (off v : Z) : list Z :=
  if off <? 0 then m else replace m (Z.to_nat off) v.

(** [n] consecutive bytes starting at [off]. *)
Fixpoint peekn (m : list Z) (off : Z) (n : nat) : list Z :=
  match n with
  | O => []
  | S n' => peek m off :: peekn m (off + 1) n'
  end.

(** ** Events *)

Inductive warning : Type :=
| RecvFailed (read errno : Z)
| IncompletePacket (read : Z)
| InvalidVersion (version : Z)
| InvalidHeaderLength (headerBytes read : Z)
| NonIcmpPacket (protocol : Z)
| CorruptIcmpPacket (src : Z)
| SetDfFailed
| WouldHaveBlocked (address : Z)
| SendFailed (address errno : Z)
| PartialSend (sent rawPacketSize address : Z).

Inductive event : Type :=
| MemLoad (off : Z)
| MemStore (off : Z)
| Warn (w : warning)
| ReceivedReply (address : Z)
| SetSockOptMtuDiscover
| SendTo (datagram : list Z) (address : Z).

Definition loads (t : list event) : list Z :=
  flat_map (fun e => match e with MemLoad o => [o] | _ => [] end) t.

Definition stores (t : list event) : list Z :=
  flat_map (fun e => match e with MemStore o => [o] | _ => [] end) t.

Definition warnings (t : list event) : list warning :=
  flat_map (fun e => match e with Warn w => [w] | _ => [] end) t.

Definition replies (t : list event) : list Z :=
  flat_map (fun e => match e with ReceivedReply a => [a] | _ => [] end) t.

Definition datagrams (t : list event) : list (list Z * Z) :=
  flat_map (fun e => match e with SendTo d a => [(d, a)] | _ => [] end) t.

(** ** Layout of the wire structures *)

(** [struct ip] of <netinet/ip.h>: byte offsets of its members.  The
    bit-fields [ip_v] and [ip_hl] share byte 0, version in the high
    nibble. *)
Module ip.
Definition ip_vhl : Z := 0.
Definition ip_tos : Z := 1.
Definition ip_len : Z := 2.
Definition ip_id : Z := 4.
Definition ip_off : Z := 6.
Definition ip_ttl : Z := 8.
Definition ip_p : Z := 9.
Definition ip_sum : Z := 10.
Definition ip_src : Z := 12.
Definition ip_dst : Z := 16.
Definition sizeof : Z := 20.
End ip.

Definition IP_DF : Z := 16384.

(** The local [struct Ipv4] of [onReadyRead]. *)
Module Ipv4.
Definition version_ihl : Z := 0.
Definition dscp_ecn : Z := 1.
Definition len : Z := 2.
Definition id : Z := 4.
Definition flags_foffset : Z := 6.
Definition ttl : Z := 8.
Definition protocol : Z := 9.
Definition checksum : Z := 10.
Definition src : Z := 12.
Definition dest : Z := 16.
Definition sizeof : Z := 20.
End Ipv4.

(** Modelled from the spec: [struct IcmpEcho] is declared in posix_ping.h,
    which is not among the sources.  The spec gives the ICMP Echo message
    as type / code / checksum / identifier / sequence, 8 bytes: two 8-bit
    fields followed by three 16-bit fields. *)
Module IcmpEcho.
Definition type : Z := 0.
Definition code : Z := 1.
Definition checksum : Z := 2.
Definition identifier : Z := 4.
Definition sequence : Z := 6.
Definition sizeof : Z := 8.
End IcmpEcho.

(** ** The prober *)

(** Modelled from the spec: [PosixFd] is declared in posix_objects.h, which
    is not among the sources.  It owns a file descriptor and converts to
    [true] exactly when the descriptor is valid (the socket was opened). *)
Inductive PosixFd : Type := InvalidFd | Fd (fd : Z).

Definition isOpen (s : PosixFd) : bool :=
  match s with InvalidFd => false | Fd _ => true end.

Record PosixPing : Type := mkPosixPing {
  _identifier : Z;      (* quint16 *)
  _nextSequence : Z;    (* quint16 *)
  _icmpSocket : PosixFd
}.

(** The constructor: [random] is what [QRandomGenerator::bounded] answered,
    [fd] what [::socket] answered. *)
Definition PosixPing_new (random fd : Z) : PosixPing :=
  mkPosixPing (u16 random) 0 (if fd <? 0 then InvalidFd else Fd fd).

(** ** Computations of the member functions: a state monad over the object
    and the buffer at hand, which also collects the events of the
    computation in program order. *)

Record State : Type := mkState { this : PosixPing; buffer : list Z }.

Record Res (A : Type) : Type := mkRes { val : A; st : State; tr : list event }.
Arguments mkRes {A} _ _ _.
Arguments val {A} _.
Arguments st {A} _.
Arguments tr {A} _.

Definition M (A : Type) : Type := State -> Res A.

Definition ret {A} (a : A) : M A := fun s => mkRes a s [].

Definition bind {A B} (c : M A) (f : A -> M B) : M B :=
  fun s =>
    let r1 := c s in
    let r2 := f (val r1) (st r1) in
    mkRes (val r2) (st r2) (tr r1 ++ tr r2).

Notation "x <- c ;; k" := (bind c (fun x => k))
  (at level 61, c at next level, right associativity).
Notation "c ;;; k" := (bind c (fun _ => k))
  (at level 61, right associativity).

Definition emit (e : event) : M unit := fun s => mkRes tt s [e].

Definition member {A} (f : PosixPing -> A) : M A :=
  fun s => mkRes (f (this s)) s [].

Definition load8 (off : Z) : M Z :=
  fun s => mkRes (peek (buffer s) off) s [MemLoad off].

Definition store8 (off v : Z) : M unit :=
  fun s => mkRes tt (mkState (this s) (poke (buffer s) off (u8 v)))
                 [MemStore off].

Fixpoint loadBytes (off : Z) (n : nat) : M (list Z) :=
  match n with
  | O => ret []
  | S n' => b <- load8 off ;; bs <- loadBytes (off + 1) n' ;; ret (b :: bs)
  end.

Fixpoint storeBytes (off : Z) (bs : list Z) : M unit :=
  match bs with
  | [] => ret tt
  | b :: bs' => store8 off b ;;; storeBytes (off + 1) bs'
  end.

(** [++_nextSequence] on a [quint16]. *)
Definition incrementNextSequence : M unit :=
  fun s =>
    mkRes tt
      (mkState (mkPosixPing (_identifier (this s))
                            (u16 (_nextSequence (this s) + 1))
                            (_icmpSocket (this s)))
               (buffer s))
      [].

(** [rawPacket.resize(n)] on the empty vector: [n] value-initialised
    bytes. *)
Definition resize (n : Z) : M unit :=
  fun s => mkRes tt (mkState (this s) (repeat 0 (Z.to_nat n))) [].

Section Host.

Variable host : endian.
Variable os : platform.

(** Read / write of a [w]-byte integer field through a pointer. *)
Definition load (w : nat) (off : Z) : M Z :=
  bs <- loadBytes off w ;; ret (int_of host bs).

Definition store (w : nat) (off v : Z) : M unit :=
  storeBytes off (bytes_of host w v).

(** ** calcChecksum *)

(** The [while(words != wordsEnd)] loop; [n] is the number of 16-bit words
    left, [words] the offset of the next one. *)
Fixpoint sumWords (words : Z) (n : nat) (accum : Z) : M Z :=
  match n with
  | O => ret accum
  | S n' =>
      w <- load 2 words ;;
      sumWords (words + 2) n' (u32 (accum + w))
  end.

(** Lines 64-75: the accumulator before the carries are folded. *)
Definition accumulate (data len : Z) : M Z :=
  accum <- sumWords data (Z.to_nat (len / 2)) 0 ;;
  if len mod 2 =? 0 then ret accum
  else b <- load8 (data + (len - 1)) ;; ret (u32 (accum + b)).

Definition foldCarry (accum : Z) : Z :=
  u32 (Z.land accum 65535 + Z.shiftr accum 16).

Definition complement16 (accum : Z) : Z := u16 (Z.lnot (u16 accum)).

Definition calcChecksum (data len : Z) : M Z :=
  accum <- accumulate data len ;;
  let accum := foldCarry accum in
  let accum := foldCarry accum in
  ret (complement16 accum).

(** ** onReadyRead *)

(** [read] and [errno] are what [recv] answered; the buffer of the
    computation is the local array [packet] after [recv] filled it. *)
Definition onReadyRead (read errno : Z) : M unit :=
  if read <? 0 then emit (Warn (RecvFailed read errno))
  else if u64 read <? Ipv4.sizeof then emit (Warn (IncompletePacket read))
  else
    let pIpHdr := 0 in
    version_ihl <- load8 (pIpHdr + Ipv4.version_ihl) ;;
    if negb (Z.shiftr version_ihl 4 =? 4) then
      version_ihl <- load8 (pIpHdr + Ipv4.version_ihl) ;;
      emit (Warn (InvalidVersion (Z.shiftr version_ihl 4)))
    else
      version_ihl <- load8 (pIpHdr + Ipv4.version_ihl) ;;
      let headerBytes := Z.land version_ihl 15 * 4 in
      if (headerBytes <? 20) || (u64 read <? headerBytes)
         || (u64 (read - headerBytes) <? IcmpEcho.sizeof)
      then emit (Warn (InvalidHeaderLength headerBytes read))
      else
        protocol <- load8 (pIpHdr + Ipv4.protocol) ;;
        if negb (protocol =? 1) then
          protocol <- load8 (pIpHdr + Ipv4.protocol) ;;
          emit (Warn (NonIcmpPacket protocol))
        else
          sum <- calcChecksum (0 + headerBytes) (u64 (read - headerBytes)) ;;
          (if negb (sum =? 0) then
             src <- load 4 (pIpHdr + Ipv4.src) ;;
             emit (Warn (CorruptIcmpPacket (ntohl host src)))
           else ret tt) ;;;
          let pEchoReply := 0 + headerBytes in
          type <- load8 (pEchoReply + IcmpEcho.type) ;;
          if negb (type =? 0) then ret tt
          else
            code <- load8 (pEchoReply + IcmpEcho.code) ;;
            if negb (code =? 0) then ret tt
            else
              identifier <- load 2 (pEchoReply + IcmpEcho.identifier) ;;
              _identifier <- member _identifier ;;
              if negb (ntohs host identifier =? _identifier) then ret tt
              else
                src <- load 4 (pIpHdr + Ipv4.src) ;;
                emit (ReceivedReply (ntohl host src)).

(** One wake-up of the listener of [self] on the array [packet]. *)
Definition receive (self : PosixPing) (packet : list Z) (read errno : Z)
  : list event :=
  tr (onReadyRead read errno (mkState self packet)).

(** ** sendEchoRequest *)

Definition TimestampField : nat :=
  match os with Mac => 4%nat | Linux => 8%nat end.

Definition EWOULDBLOCK : Z :=
  match os with Mac => 35 | Linux => 11 end.

(** What the operating system answers during one call. *)
Record SendEnv : Type := mkSendEnv {
  tv_sec : Z;          (* gettimeofday *)
  tv_usec : Z;
  setsockopt_err : Z;  (* setsockopt(IP_MTU_DISCOVER) *)
  sent : Z;            (* sendto *)
  errno : Z
}.

(** [ip->ip_v = v] and [ip->ip_hl = v]: read-modify-write of byte 0. *)
Definition set_ip_v (ip v : Z) : M unit :=
  b <- load8 (ip + ip.ip_vhl) ;;
  store8 (ip + ip.ip_vhl) (Z.lor (Z.land b 15) (Z.shiftl (Z.land v 15) 4)).

Definition set_ip_hl (ip v : Z) : M unit :=
  b <- load8 (ip + ip.ip_vhl) ;;
  store8 (ip + ip.ip_vhl) (Z.lor (Z.land b 240) (Z.land v 15)).

(** Lines 112-125. *)
Definition writeIpHeader (ip address rawPacketSize : Z) : M unit :=
  _identifier <- member _identifier ;;
  store 4 (ip + ip.ip_src) 0 ;;;
  set_ip_v ip 4 ;;;
  set_ip_hl ip (Z.shiftr ip.sizeof 2) ;;;
  store8 (ip + ip.ip_tos) 0 ;;;
  store 2 (ip + ip.ip_len) rawPacketSize ;;;
  store 2 (ip + ip.ip_id) (htons host _identifier) ;;;
  store 2 (ip + ip.ip_off) (htons host 0) ;;;
  store8 (ip + ip.ip_ttl) 255 ;;;
  store8 (ip + ip.ip_p) 1 ;;;
  store 2 (ip + ip.ip_sum) 0 ;;;
  store 4 (ip + ip.ip_dst) (htonl host address).

(** Lines 127-131. *)
Definition writeIcmpHeader (pEcho : Z) : M unit :=
  _identifier <- member _identifier ;;
  _nextSequence <- member _nextSequence ;;
  store8 (pEcho + IcmpEcho.type) 8 ;;;
  store8 (pEcho + IcmpEcho.code) 0 ;;;
  store 2 (pEcho + IcmpEcho.checksum) 0 ;;;
  store 2 (pEcho + IcmpEcho.identifier) (htons host _identifier) ;;;
  store 2 (pEcho + IcmpEcho.sequence) (htons host _nextSequence).

(** Lines 136-139:
    [for(int i = 0; i < payloadSize; ++i) packet[sizeof(IcmpEcho)+i] = i;]
    with [n] iterations left. *)
Fixpoint fillPayload (packet i : Z) (n : nat) : M unit :=
  match n with
  | O => ret tt
  | S n' =>
      store8 (packet + (IcmpEcho.sizeof + i)) i ;;;
      fillPayload packet (i + 1) n'
  end.

(** Lines 141-154. *)
Definition writeTimestamp (packet : Z) (env : SendEnv) : M unit :=
  let pWritePos := packet + IcmpEcho.sizeof in
  store TimestampField pWritePos (tv_sec env) ;;;
  let pWritePos := pWritePos + Z.of_nat TimestampField in
  store TimestampField pWritePos (tv_usec env).

(** Lines 160-172; the value is [false] when the function returns there. *)
Definition setDontFragment (ip : Z) (env : SendEnv) : M bool :=
  match os with
  | Mac => store 2 (ip + ip.ip_off) IP_DF ;;; ret true
  | Linux =>
      store 2 (ip + ip.ip_off) (htons host IP_DF) ;;;
      emit SetSockOptMtuDiscover ;;;
      if negb (setsockopt_err env =? 0)
      then emit (Warn SetDfFailed) ;;; ret false
      else ret true
  end.

(** Lines 174-202: [sendto] is handed the first [rawPacketSize] bytes of
    the buffer. *)
Definition transmit (address rawPacketSize : Z) (env : SendEnv) : M bool :=
  fun s =>
    (emit (SendTo (firstn (Z.to_nat rawPacketSize) (buffer s)) address) ;;;
     if sent env <? 0 then
       (if errno env =? EWOULDBLOCK
        then emit (Warn (WouldHaveBlocked address))
        else emit (Warn (SendFailed address (errno env)))) ;;;
       ret false
     else if negb (sent env =? rawPacketSize) then
       emit (Warn (PartialSend (sent env) rawPacketSize address)) ;;;
       ret false
     else ret true) s.

(** How a call ends: it returns a [bool], or [rawPacket.resize] throws
    [std::length_error] (a negative [int] size converts to a [size_t]
    above [max_size()]).  Memory is taken to suffice for every other
    size. *)
Inductive outcome : Type := Returned (b : bool) | Threw.

(** [int rawPacketSize = sizeof(IcmpEcho) + payloadSize + sizeof(struct ip)]:
    the sum is taken in [size_t] and converted to [int]. *)
Definition rawPacketSizeOf (payloadSize : Z) : Z :=
  to_int (u64 (IcmpEcho.sizeof + payloadSize + ip.sizeof)).

Definition packetSizeOf (payloadSize : Z) : Z :=
  to_int (u64 (IcmpEcho.sizeof + payloadSize)).

Definition sendEchoRequest (address payloadSize : Z) (allowFragment : bool)
    (env : SendEnv) : M outcome :=
  _icmpSocket <- member _icmpSocket ;;
  if negb (isOpen _icmpSocket) then ret (Returned false)
  else
    let rawPacketSize := rawPacketSizeOf payloadSize in
    let packetSize := packetSizeOf payloadSize in
    if rawPacketSize <? 0 then ret Threw
    else
      resize rawPacketSize ;;;
      let pRawPacket := 0 in
      let packet := pRawPacket + ip.sizeof in
      let pEcho := packet in
      let ip := pRawPacket in
      writeIpHeader ip address rawPacketSize ;;;
      writeIcmpHeader pEcho ;;;
      incrementNextSequence ;;;
      fillPayload packet 0 (Z.to_nat payloadSize) ;;;
      writeTimestamp packet env ;;;
      sum <- calcChecksum packet (u64 packetSize) ;;
      store 2 (pEcho + IcmpEcho.checksum) sum ;;;
      ok <- (if negb allowFragment then setDontFragment ip env
             else ret true) ;;
      if negb ok then ret (Returned false)
      else
        ok <- transmit address rawPacketSize env ;;
        ret (Returned ok).

(** One call on the prober [self], seen from outside. *)
Record SendCall : Type := mkSendCall {
  address : Z;
  payloadSize : Z;
  allowFragment : bool;
  env : SendEnv
}.

Record SendResult : Type := mkSendResult {
  result : outcome;
  prober : PosixPing;        (* the prober after the call *)
  rawPacket : list Z;        (* the vector when the call ends *)
  events : list event
}.

Definition call (self : PosixPing) (c : SendCall) : SendResult :=
  let r := sendEchoRequest (address c) (payloadSize c) (allowFragment c)
                           (env c) (mkState self []) in
  mkSendResult (val r) (this (st r)) (buffer (st r)) (tr r).

(** A sequence of calls on one prober. *)
Fixpoint sendAll (self : PosixPing) (cs : list SendCall)
  : list SendResult * PosixPing :=
  match cs with
  | [] => ([], self)
  | c :: cs' =>
      let r := call self c in
      let '(rs, final) := sendAll (prober r) cs' in
      (r :: rs, final)
  end.

(** The call gets as far as building the packet: the socket is open, the
    payload size is a byte count (not negative) and the [int] buffer size
    holds the packet, so that [resize] does not throw.  A payload size of
    -28 .. -1 also passes [resize], but the vector is then shorter than the
    28 bytes of the two headers that lines 112-131 store through [data()],
    and [packetSize] is negative for -28 .. -9, so that [calcChecksum] is
    handed a length near [2 ^ 64]: the behaviour of the code is undefined
    there and such calls do not count as reaching construction. *)
Definition reachesConstruction (self : PosixPing) (c : SendCall) : bool :=
  isOpen (_icmpSocket self) && (0 <=? payloadSize c)
  && (0 <=? rawPacketSizeOf (payloadSize c)).

End Host.

(** ** Auxiliary definitions for the statements *)

(** The offsets [off, off + 1, ..., off + n - 1]. *)
Fixpoint span (off : Z) (n : nat) : list Z :=
  match n with
  | O => []
  | S n' => off :: span (off + 1) n'
  end.

(** The buffer after the bytes [bs] are stored from [off] on. *)
Fixpoint pokeBytes (m : list Z) (off : Z) (bs : list Z) : list Z :=
  match bs with
  | [] => m
  | b :: bs' => pokeBytes (poke m off (u8 b)) (off + 1) bs'
  end.

(** The 16-bit word of the buffer at [off], as the host reads it. *)
Definition word (host : endian) (m : list Z) (off : Z) : Z :=
  int_of host [peek m off; peek m (off + 1)].

(** Sum of the [n] consecutive words from [off] on. *)
Fixpoint wordSum (host : endian) (m : list Z) (off : Z) (n : nat) : Z :=
  match n with
  | O => 0
  | S n' => word host m off + wordSum host m (off + 2) n'
  end.

(** The complete 16-bit words of a buffer, as the host reads them; a
    trailing odd byte is left out. *)
Fixpoint words16 (host : endian) (buf : list Z) : list Z :=
  match buf with
  | b0 :: b1 :: rest => int_of host [b0; b1] :: words16 host rest
  | _ => []
  end.

Definition sumZ (l : list Z) : Z := fold_right Z.add 0 l.

(** The trailing odd byte that [calcChecksum] adds, 0 when [len] is even. *)
Definition trailing (m : list Z) (data len : Z) : Z :=
  if len mod 2 =? 0 then 0 else peek m (data + (len - 1)).

(** The offsets that [calcChecksum data len] reads, in order. *)
Definition checksumLoads (data len : Z) : list Z :=
  span data (2 * Z.to_nat (len / 2))
  ++ (if len mod 2 =? 0 then [] else [data + (len - 1)]).

(** The fields of a received datagram that [onReadyRead] inspects. *)
Definition ipVersion (packet : list Z) : Z :=
  Z.shiftr (peek packet Ipv4.version_ihl) 4.

Definition headerLength (packet : list Z) : Z :=
  Z.land (peek packet Ipv4.version_ihl) 15 * 4.

Definition ipProtocol (packet : list Z) : Z := peek packet Ipv4.protocol.

Definition ipSource (host : endian) (packet : list Z) : Z :=
  ntohl host (int_of host (peekn packet Ipv4.src 4)).

Definition icmpType (packet : list Z) : Z :=
  peek packet (headerLength packet + IcmpEcho.type).

Definition icmpCode (packet : list Z) : Z :=
  peek packet (headerLength packet + IcmpEcho.code).

Definition icmpIdentifier (host : endian) (packet : list Z) : Z :=
  ntohs host
    (int_of host (peekn packet (headerLength packet + IcmpEcho.identifier) 2)).

(** Result of the checksum validation: [calcChecksum] over the bytes from
    the IP header length to the end of the read. *)
Definition icmpChecksumResult (host : endian) (self : PosixPing)
    (packet : list Z) (read : Z) : Z :=
  val (calcChecksum host (headerLength packet) (read - headerLength packet)
                    (mkState self packet)).

(** The datagram fails one of the length / version checks. *)
Definition malformed (packet : list Z) (read : Z) : Prop :=
  read < 20 \/ ipVersion packet <> 4 \/ headerLength packet < 20
  \/ read < headerLength packet
  \/ read - headerLength packet < IcmpEcho.sizeof.

(** The datagram passes the length / version / protocol checks. *)
Definition passesChecks (packet : list Z) (read : Z) : Prop :=
  20 <= read /\ ipVersion packet = 4
  /\ 20 <= headerLength packet <= read
  /\ IcmpEcho.sizeof <= read - headerLength packet
  /\ ipProtocol packet = 1.

(** The reply is not an echo reply for [self]. *)
Definition notOurs (host : endian) (self : PosixPing) (packet : list Z) : Prop :=
  icmpType packet <> 0 \/ icmpCode packet <> 0
  \/ icmpIdentifier host packet <> _identifier self.

(** What [onReadyRead] does with a datagram that passed the length,
    version and protocol checks, from the checksum validation on. *)
Definition inspectedTrace (host : endian) (self : PosixPing) (packet : list Z)
    (read : Z) : list event :=
  let hb := headerLength packet in
  map MemLoad (checksumLoads hb (read - hb))
  ++ (if icmpChecksumResult host self packet read =? 0 then []
      else map MemLoad (span Ipv4.src 4)
           ++ [Warn (CorruptIcmpPacket (ipSource host packet))])
  ++ MemLoad (hb + IcmpEcho.type)
  :: (if negb (icmpType packet =? 0) then []
      else MemLoad (hb + IcmpEcho.code)
        :: (if negb (icmpCode packet =? 0) then []
            else map MemLoad (span (hb + IcmpEcho.identifier) 2)
              ++ (if negb (icmpIdentifier host packet =? _identifier self)
                  then []
                  else map MemLoad (span Ipv4.src 4)
                       ++ [ReceivedReply (ipSource host packet)]))).

(** Every buffer access of the trace satisfies [P]. *)
Definition accessesWithin (P : Z -> Prop) (e : event) : Prop :=
  match e with
  | MemLoad o | MemStore o => P o
  | _ => True
  end.

(** ** The packet [sendEchoRequest] builds, stage by stage *)

(** [++_nextSequence] applied to the prober. *)
Definition incremented (self : PosixPing) : PosixPing :=
  mkPosixPing (_identifier self) (u16 (_nextSequence self + 1))
              (_icmpSocket self).

(** The 20 bytes of the IP header after lines 112-125. *)
Definition ipHeader (host : endian) (self : PosixPing)
    (address rawPacketSize : Z) : list Z :=
  [69; 0] ++ bytes_of host 2 rawPacketSize
  ++ bytes_of host 2 (htons host (_identifier self))
  ++ bytes_of host 2 (htons host 0)
  ++ [255; 1] ++ bytes_of host 2 0 ++ bytes_of host 4 0
  ++ bytes_of host 4 (htonl host address).

(** The 8 bytes of the ICMP header after lines 127-131. *)
Definition icmpHeader (host : endian) (self : PosixPing) : list Z :=
  [8; 0] ++ bytes_of host 2 0
  ++ bytes_of host 2 (htons host (_identifier self))
  ++ bytes_of host 2 (htons host (_nextSequence self)).

Definition ipHeaderTrace : list event :=
  map MemStore (span 12 4) ++ [MemLoad 0; MemStore 0; MemLoad 0; MemStore 0]
  ++ map MemStore (span 1 11) ++ map MemStore (span 16 4).

Definition icmpHeaderTrace : list event := map MemStore (span 20 8).

(** The buffer after the payload loop, with [n] iterations left. *)
Fixpoint fillBytes (m : list Z) (packet i : Z) (n : nat) : list Z :=
  match n with
  | O => m
  | S n' =>
      fillBytes (poke m (packet + (IcmpEcho.sizeof + i)) (u8 i)) packet
                (i + 1) n'
  end.

(** Value of [calcChecksum data len] on the buffer [m]. *)
Definition checksumValue (host : endian) (m : list Z) (data len : Z) : Z :=
  complement16 (foldCarry (foldCarry
    (u32 (wordSum host m data (Z.to_nat (len / 2)) + trailing m data len)))).

(** The buffer when [calcChecksum] is called (line 158). *)
Definition builtPacket (host : endian) (os : platform) (self : PosixPing)
    (address payloadSize : Z) (env : SendEnv) : list Z :=
  let ts := TimestampField os in
  let b1 := ipHeader host self address (28 + payloadSize)
            ++ icmpHeader host self ++ repeat 0 (Z.to_nat payloadSize) in
  let b2 := fillBytes b1 20 0 (Z.to_nat payloadSize) in
  pokeBytes (pokeBytes b2 28 (bytes_of host ts (tv_sec env)))
            (28 + Z.of_nat ts) (bytes_of host ts (tv_usec env)).

Definition builtChecksum (host : endian) (os : platform) (self : PosixPing)
    (address payloadSize : Z) (env : SendEnv) : Z :=
  checksumValue host (builtPacket host os self address payloadSize env)
                20 (8 + payloadSize).

(** The buffer after the checksum is stored (line 158). *)
Definition checksummedPacket (host : endian) (os : platform)
    (self : PosixPing) (address payloadSize : Z) (env : SendEnv) : list Z :=
  pokeBytes (builtPacket host os self address payloadSize env) 22
            (bytes_of host 2
               (builtChecksum host os self address payloadSize env)).

(** The events of lines 103-158. *)
Definition buildTrace (os : platform) (payloadSize : Z) : list event :=
  let ts := TimestampField os in
  ipHeaderTrace ++ icmpHeaderTrace
  ++ map MemStore (span 28 (Z.to_nat payloadSize))
  ++ map MemStore (span 28 ts ++ span (28 + Z.of_nat ts) ts)
  ++ map MemLoad (checksumLoads 20 (8 + payloadSize))
  ++ map MemStore (span 22 2).

(** Lines 160-202 of [sendEchoRequest]. *)
Definition sendTail (host : endian) (os : platform)
    (address rawPacketSize : Z) (allowFragment : bool) (env : SendEnv)
  : M outcome :=
  ok <- (if negb allowFragment then setDontFragment host os 0 env
         else ret true) ;;
  if negb ok then ret (Returned false)
  else
    ok <- transmit os address rawPacketSize env ;;
    ret (Returned ok).

(** The computation changes the object by [g], whatever the buffer. *)
Definition thisBecomes {A} (g : PosixPing -> PosixPing) (c : M A) : Prop :=
  forall s, this (st (c s)) = g (this s).

(** The computation leaves the object as it is. *)
Definition preservesThis {A} (c : M A) : Prop := thisBecomes (fun p => p) c.

(** ** Auxiliary definitions for the further properties *)

(** A computation that leaves the object and the buffer as they are and
    stores nothing. *)
Definition readOnly {A} (c : M A) : Prop :=
  forall s, st (c s) = s /\ stores (tr (c s)) = [].

(** The don't-fragment configuration of lines 160-172 lets the call go on:
    it is skipped, or it is the store alone (macOS), or [setsockopt]
    answered 0 (Linux). *)
Definition dontFragmentOk (os : platform) (c : SendCall) : bool :=
  allowFragment c
  || match os with Mac => true | Linux => setsockopt_err (env c) =? 0 end.

(** What line 162 / 164 stores in [ip_off]. *)
Definition dontFragmentFlag (host : endian) (os : platform) : Z :=
  match os with Mac => IP_DF | Linux => htons host IP_DF end.

(** A value a [quint8] of the buffer can hold. *)
Definition isByte (b : Z) : Prop := 0 <= b < 256.

(** * Properties *)

(** ** Fixed-width arithmetic *)

Lemma u32_range (x : Z) : 0 <= u32 x < 2 ^ 32.
Proof. unfold u32. apply Z.mod_pos_bound. lia. Qed.

Lemma u16_range (x : Z) : 0 <= u16 x < 2 ^ 16.
Proof. unfold u16. apply Z.mod_pos_bound. lia. Qed.

Lemma u32_small (x : Z) : 0 <= x < 2 ^ 32 -> u32 x = x.
Proof. intros H. unfold u32. apply Z.mod_small. exact H. Qed.

Lemma u16_small (x : Z) : 0 <= x < 2 ^ 16 -> u16 x = x.
Proof. intros H. unfold u16. apply Z.mod_small. exact H. Qed.

Lemma u64_small (x : Z) : 0 <= x < 2 ^ 64 -> u64 x = x.
Proof. intros H. unfold u64. apply Z.mod_small. exact H. Qed.

Lemma u32_add_l (a b : Z) : u32 (u32 a + b) = u32 (a + b).
Proof. unfold u32. apply Zplus_mod_idemp_l. Qed.

Lemma land_low (x : Z) (n : Z) : 0 <= n -> Z.land x (2 ^ n - 1) = x mod 2 ^ n.
Proof.
  intros Hn. rewrite <- Z.land_ones by exact Hn.
  rewrite Z.ones_equiv. f_equal.
Qed.

Lemma foldCarry_eq (a : Z) :
  0 <= a < 2 ^ 32 -> foldCarry a = a mod 2 ^ 16 + a / 2 ^ 16.
Proof.
  intros Ha. unfold foldCarry.
  change 65535 with (2 ^ 16 - 1). rewrite land_low by lia.
  rewrite Z.shiftr_div_pow2 by lia.
  apply u32_small.
  pose proof (Z.mod_pos_bound a (2 ^ 16) ltac:(lia)).
  assert (0 <= a / 2 ^ 16 < 2 ^ 16).
  { split; [apply Z.div_pos; lia | apply Z.div_lt_upper_bound; lia]. }
  lia.
Qed.

Lemma complement16_eq (x : Z) : 0 <= x < 2 ^ 16 -> complement16 x = 65535 - x.
Proof.
  intros Hx. unfold complement16. rewrite (u16_small x) by exact Hx.
  unfold Z.lnot, u16.
  replace (Z.pred (- x)) with (65535 - x + -1 * 2 ^ 16) by lia.
  rewrite Z_mod_plus_full. apply Z.mod_small. lia.
Qed.

(** The two folds of an accumulator [65536 * hi + lo]. *)
Lemma fold_twice (hi lo : Z) :
  0 <= hi < 2 ^ 16 -> 0 <= lo < 2 ^ 16 ->
  foldCarry (foldCarry (2 ^ 16 * hi + lo)) =
    if hi + lo <? 2 ^ 16 then hi + lo else hi + lo - 65535.
Proof.
  intros Hhi Hlo.
  assert (E1 : foldCarry (2 ^ 16 * hi + lo) = hi + lo).
  { rewrite foldCarry_eq by lia.
    change (2 ^ 16) with 65536 in *. Z.div_mod_to_equations. lia. }
  rewrite E1. rewrite foldCarry_eq by lia.
  change (2 ^ 16) with 65536 in *.
  destruct (hi + lo <? 65536) eqn:E; [apply Z.ltb_lt in E | apply Z.ltb_ge in E];
    Z.div_mod_to_equations; lia.
Qed.

Lemma split16 (a : Z) :
  0 <= a < 2 ^ 32 ->
  exists hi lo, a = 2 ^ 16 * hi + lo /\ 0 <= hi < 2 ^ 16 /\ 0 <= lo < 2 ^ 16.
Proof.
  intros Ha. exists (a / 2 ^ 16), (a mod 2 ^ 16).
  pose proof (Z.div_mod a (2 ^ 16) ltac:(lia)).
  pose proof (Z.mod_pos_bound a (2 ^ 16) ltac:(lia)).
  assert (0 <= a / 2 ^ 16 < 2 ^ 16).
  { split; [apply Z.div_pos; lia | apply Z.div_lt_upper_bound; lia]. }
  lia.
Qed.

Lemma finish_range (a : Z) :
  0 <= a < 2 ^ 32 -> 0 <= foldCarry (foldCarry a) < 2 ^ 16.
Proof.
  intros Ha. destruct (split16 a Ha) as (hi & lo & -> & Hhi & Hlo).
  rewrite fold_twice by assumption.
  destruct (hi + lo <? 2 ^ 16) eqn:E; [apply Z.ltb_lt in E | apply Z.ltb_ge in E]; lia.
Qed.

(** Adding the checksum of an accumulator to it makes the checksum of the
    result zero, whatever the 32-bit accumulator wrapped to. *)
Lemma checksum_cancel (total : Z) :
  let sum := complement16 (foldCarry (foldCarry (u32 total))) in
  complement16 (foldCarry (foldCarry (u32 (total + sum)))) = 0.
Proof.
  intros sum. subst sum.
  rewrite <- (u32_add_l total).
  pose proof (u32_range total) as Hr.
  destruct (split16 (u32 total) Hr) as (hi & lo & -> & Hhi & Hlo).
  assert (Ha : 0 <= 2 ^ 16 * hi + lo < 2 ^ 32) by lia.
  rewrite (complement16_eq _ (finish_range _ Ha)).
  rewrite fold_twice by assumption.
  destruct (hi + lo <? 2 ^ 16) eqn:E; [apply Z.ltb_lt in E | apply Z.ltb_ge in E].
  - replace (2 ^ 16 * hi + lo + (65535 - (hi + lo)))
      with (2 ^ 16 * hi + (65535 - hi)) by lia.
    rewrite u32_small by lia.
    rewrite fold_twice by lia.
    replace (hi + (65535 - hi) <? 2 ^ 16) with true by (symmetry; apply Z.ltb_lt; lia).
    rewrite complement16_eq by lia. lia.
  - replace (2 ^ 16 * hi + lo + (65535 - (hi + lo - 65535)))
      with (2 ^ 16 * hi + (131070 - hi)) by lia.
    rewrite u32_small by lia.
    destruct (Z.eq_dec hi 65535) as [->|Hne].
    + reflexivity.
    + replace (2 ^ 16 * hi + (131070 - hi))
        with (2 ^ 16 * (hi + 1) + (65534 - hi)) by lia.
      rewrite fold_twice by lia.
      replace (hi + 1 + (65534 - hi) <? 2 ^ 16) with true by (symmetry; apply Z.ltb_lt; lia).
      rewrite complement16_eq by lia. lia.
Qed.

(** ** Byte order *)

Lemma lor_shiftl_add (hi lo n : Z) :
  0 <= n -> 0 <= lo < 2 ^ n -> Z.lor (Z.shiftl hi n) lo = hi * 2 ^ n + lo.
Proof.
  intros Hn Hlo.
  assert (D : Z.land (Z.shiftl hi n) lo = 0).
  { apply Z.bits_inj'. intros m Hm.
    rewrite Z.land_spec, Z.bits_0.
    destruct (Z.ltb_spec m n).
    - rewrite Z.shiftl_spec_low by lia. reflexivity.
    - rewrite <- (Z.mod_small lo (2 ^ n)) by lia.
      rewrite Z.mod_pow2_bits_high by lia. apply andb_false_r. }
  rewrite <- Z.shiftl_mul_pow2 by lia.
  rewrite <- Z.add_lor_land, D. lia.
Qed.

Lemma land_255 (x : Z) : Z.land x 255 = x mod 256.
Proof. change 255 with (2 ^ 8 - 1). rewrite land_low by lia. reflexivity. Qed.

Lemma bswap16_eq (x : Z) :
  bswap16 x = (x mod 256) * 256 + (x / 256) mod 256.
Proof.
  unfold bswap16. rewrite !land_255.
  rewrite (lor_shiftl_add _ _ 8) by (try lia; change (2 ^ 8) with 256;
    apply Z.mod_pos_bound; lia).
  rewrite Z.shiftr_div_pow2 by lia. reflexivity.
Qed.

Lemma bswap32_eq (x : Z) :
  bswap32 x =
    (x mod 256) * 2 ^ 24 + ((x / 2 ^ 8) mod 256) * 2 ^ 16
    + ((x / 2 ^ 16) mod 256) * 2 ^ 8 + (x / 2 ^ 24) mod 256.
Proof.
  unfold bswap32. rewrite !land_255, !Z.shiftr_div_pow2 by lia.
  pose proof (Z.mod_pos_bound x 256 ltac:(lia)).
  pose proof (Z.mod_pos_bound (x / 2 ^ 8) 256 ltac:(lia)).
  pose proof (Z.mod_pos_bound (x / 2 ^ 16) 256 ltac:(lia)).
  pose proof (Z.mod_pos_bound (x / 2 ^ 24) 256 ltac:(lia)).
  rewrite (lor_shiftl_add _ ((x / 2 ^ 24) mod 256) 8) by lia.
  rewrite (Z.shiftl_mul_pow2 _ 16) by lia.
  rewrite (Z.shiftl_mul_pow2 (x mod 256) 24) by lia.
  replace ((x mod 256) * 2 ^ 24)
    with (Z.shiftl ((x mod 256) * 2 ^ 8) 16)
    by (rewrite Z.shiftl_mul_pow2 by lia; lia).
  replace ((x / 2 ^ 8) mod 256 * 2 ^ 16)
    with (Z.shiftl ((x / 2 ^ 8) mod 256) 16)
    by (rewrite Z.shiftl_mul_pow2 by lia; lia).
  rewrite <- Z.shiftl_lor.
  replace ((x mod 256) * 2 ^ 8) with (Z.shiftl (x mod 256) 8)
    by (rewrite Z.shiftl_mul_pow2 by lia; lia).
  rewrite (lor_shiftl_add _ ((x / 2 ^ 8) mod 256) 8) by lia.
  rewrite (lor_shiftl_add _ _ 16) by lia.
  rewrite !Z.shiftl_mul_pow2 by lia. lia.
Qed.

Lemma byte_cons_mod (b r : Z) : 0 <= b < 256 -> (b + 256 * r) mod 256 = b.
Proof.
  intros Hb. Z.div_mod_to_equations. lia.
Qed.

Lemma byte_cons_div (b r : Z) : 0 <= b < 256 -> (b + 256 * r) / 256 = r.
Proof.
  intros Hb. Z.div_mod_to_equations. lia.
Qed.

Ltac divmod256 t :=
  pose proof (Z.div_mod t 256 ltac:(lia));
  pose proof (Z.mod_pos_bound t 256 ltac:(lia)).

Lemma bswap16_range (x : Z) : 0 <= bswap16 x < 2 ^ 16.
Proof.
  rewrite bswap16_eq. divmod256 x. divmod256 (x / 256). lia.
Qed.

Lemma bswap16_involutive (x : Z) :
  0 <= x < 2 ^ 16 -> bswap16 (bswap16 x) = x.
Proof.
  intros Hx. rewrite (bswap16_eq (bswap16 x)), (bswap16_eq x).
  divmod256 x. divmod256 (x / 256).
  assert (E : x / 256 / 256 = 0) by (rewrite Z.div_div by lia; apply Z.div_small; lia).
  set (a := x mod 256) in *. set (b := (x / 256) mod 256) in *.
  replace (a * 256 + b) with (b + 256 * a) by lia.
  rewrite byte_cons_mod, byte_cons_div, (Z.mod_small a) by lia. lia.
Qed.

(** [bswap32] on the bytes of its argument, least significant first. *)
Lemma bswap32_bytes (x : Z) :
  bswap32 x =
    (x / 256 / 256 / 256) mod 256
    + 256 * ((x / 256 / 256) mod 256
             + 256 * ((x / 256) mod 256 + 256 * (x mod 256))).
Proof.
  rewrite bswap32_eq.
  change (2 ^ 8) with 256. change (2 ^ 16) with (256 * 256).
  change (2 ^ 24) with (256 * (256 * 256)).
  rewrite <- !Z.div_div by lia. lia.
Qed.

Lemma bswap32_range (x : Z) : 0 <= bswap32 x < 2 ^ 32.
Proof.
  rewrite bswap32_bytes.
  divmod256 x. divmod256 (x / 256). divmod256 (x / 256 / 256).
  divmod256 (x / 256 / 256 / 256). lia.
Qed.

Lemma bswap32_involutive (x : Z) :
  0 <= x < 2 ^ 32 -> bswap32 (bswap32 x) = x.
Proof.
  intros Hx. rewrite (bswap32_bytes (bswap32 x)), (bswap32_bytes x).
  divmod256 x. divmod256 (x / 256). divmod256 (x / 256 / 256).
  divmod256 (x / 256 / 256 / 256).
  assert (E : x / 256 / 256 / 256 / 256 = 0)
    by (rewrite !Z.div_div by lia; apply Z.div_small; lia).
  set (a := x mod 256) in *. set (b := (x / 256) mod 256) in *.
  set (c := (x / 256 / 256) mod 256) in *.
  set (d := (x / 256 / 256 / 256) mod 256) in *.
  rewrite !byte_cons_div by lia.
  rewrite (byte_cons_mod b a), (byte_cons_mod c), (byte_cons_mod d) by lia.
  rewrite (Z.mod_small a) by lia. lia.
Qed.

Lemma ntohs_htons (host : endian) (x : Z) :
  0 <= x < 2 ^ 16 -> ntohs host (htons host x) = x.
Proof.
  intros Hx. unfold ntohs, htons. destruct host;
    [apply bswap16_involutive; exact Hx | reflexivity].
Qed.

Lemma htons_range (host : endian) (x : Z) :
  0 <= x < 2 ^ 16 -> 0 <= htons host x < 2 ^ 16.
Proof.
  intros Hx. unfold htons. destruct host; [apply bswap16_range | exact Hx].
Qed.

Lemma ntohl_htonl (host : endian) (x : Z) :
  0 <= x < 2 ^ 32 -> ntohl host (htonl host x) = x.
Proof.
  intros Hx. unfold ntohl, htonl. destruct host;
    [apply bswap32_involutive; exact Hx | reflexivity].
Qed.

Lemma htonl_range (host : endian) (x : Z) :
  0 <= x < 2 ^ 32 -> 0 <= htonl host x < 2 ^ 32.
Proof.
  intros Hx. unfold htonl. destruct host; [apply bswap32_range | exact Hx].
Qed.

(** A 16-bit field read back from its representation. *)
Lemma int_of_bytes_of_2 (host : endian) (v : Z) :
  int_of host (bytes_of host 2 v) = u16 v.
Proof.
  unfold u16. destruct host; cbn [int_of bytes_of bytes_le rev app int_le];
    unfold u8; rewrite !Z.shiftr_div_pow2 by lia; change (2 ^ 8) with 256;
    apply Z.mod_unique with (q := v / 256 / 256);
    divmod256 v; divmod256 (v / 256); lia.
Qed.

(** A 32-bit field read back from its representation. *)
Lemma int_of_bytes_of_4 (host : endian) (v : Z) :
  int_of host (bytes_of host 4 v) = u32 v.
Proof.
  unfold u32. destruct host; cbn [int_of bytes_of bytes_le rev app int_le];
    unfold u8; rewrite !Z.shiftr_div_pow2 by lia; change (2 ^ 8) with 256;
    apply Z.mod_unique with (q := v / 256 / 256 / 256 / 256);
    divmod256 v; divmod256 (v / 256); divmod256 (v / 256 / 256);
    divmod256 (v / 256 / 256 / 256); lia.
Qed.

(** ** Buffers *)

Lemma length_replace (m : list Z) (n : nat) (v : Z) :
  length (replace m n v) = length m.
Proof.
  revert n. induction m as [|h t IH]; intros [|n]; cbn; try reflexivity.
  now rewrite IH.
Qed.

Lemma length_poke (m : list Z) (off v : Z) : length (poke m off v) = length m.
Proof. unfold poke. destruct (off <? 0); [reflexivity | apply length_replace]. Qed.

Lemma nth_replace (m : list Z) (n k : nat) (v : Z) :
  nth k (replace m n v) 0 =
    if ((k =? n) && (n <? length m))%nat then v else nth k m 0.
Proof.
  revert n k. induction m as [|h t IH]; intros [|n] [|k]; cbn; try reflexivity.
  - now rewrite andb_false_r.
  - rewrite IH. reflexivity.
Qed.

Lemma peek_poke (m : list Z) (off v o : Z) :
  peek (poke m off v) o =
    if (o =? off) && (0 <=? off) && (off <? Z.of_nat (length m))
    then v else peek m o.
Proof.
  unfold peek, poke.
  destruct (Z.ltb_spec off 0) as [Hoff|Hoff].
  - replace (0 <=? off) with false by (symmetry; apply Z.leb_gt; lia).
    rewrite andb_false_r. reflexivity.
  - replace (0 <=? off) with true by (symmetry; apply Z.leb_le; lia).
    rewrite andb_true_r.
    destruct (Z.ltb_spec o 0) as [Ho|Ho].
    + replace (o =? off) with false by (symmetry; apply Z.eqb_neq; lia).
      reflexivity.
    + rewrite nth_replace.
      replace (Z.to_nat o =? Z.to_nat off)%nat with (o =? off)
        by (destruct (Z.eqb_spec o off), (Nat.eqb_spec (Z.to_nat o) (Z.to_nat off));
            try reflexivity; lia).
      replace (Z.to_nat off <? length m)%nat with (off <? Z.of_nat (length m))
        by (destruct (Z.ltb_spec off (Z.of_nat (length m))),
                     (Nat.ltb_spec (Z.to_nat off) (length m));
            try reflexivity; lia).
      reflexivity.
Qed.

Lemma peek_poke_other (m : list Z) (off v o : Z) :
  o <> off -> peek (poke m off v) o = peek m o.
Proof.
  intros H. rewrite peek_poke.
  replace (o =? off) with false by (symmetry; apply Z.eqb_neq; exact H).
  reflexivity.
Qed.

Lemma peek_skipn (m : list Z) (k : nat) (o : Z) :
  0 <= o -> peek (skipn k m) o = peek m (Z.of_nat k + o).
Proof.
  intros Ho. unfold peek.
  replace (o <? 0) with false by (symmetry; apply Z.ltb_ge; lia).
  replace (Z.of_nat k + o <? 0) with false by (symmetry; apply Z.ltb_ge; lia).
  rewrite nth_skipn. f_equal. lia.
Qed.

Lemma span_In (off : Z) (n : nat) (x : Z) :
  In x (span off n) <-> off <= x < off + Z.of_nat n.
Proof.
  revert off. induction n as [|n IH]; intros off; cbn [span In].
  - lia.
  - rewrite IH. lia.
Qed.

Lemma span_app (off : Z) (n k : nat) :
  span off (n + k) = span off n ++ span (off + Z.of_nat n) k.
Proof.
  revert off. induction n as [|n IH]; intros off.
  - cbn. f_equal. lia.
  - cbn [Nat.add span app]. rewrite IH. do 3 f_equal. lia.
Qed.

(** ** Primitive computations *)

Lemma loads_app (t1 t2 : list event) : loads (t1 ++ t2) = loads t1 ++ loads t2.
Proof. apply flat_map_app. Qed.

Lemma stores_app (t1 t2 : list event) : stores (t1 ++ t2) = stores t1 ++ stores t2.
Proof. apply flat_map_app. Qed.

Lemma warnings_app (t1 t2 : list event) :
  warnings (t1 ++ t2) = warnings t1 ++ warnings t2.
Proof. apply flat_map_app. Qed.

Lemma replies_app (t1 t2 : list event) :
  replies (t1 ++ t2) = replies t1 ++ replies t2.
Proof. apply flat_map_app. Qed.

Lemma loads_MemLoad (l : list Z) : loads (map MemLoad l) = l.
Proof. induction l; cbn; [reflexivity | now f_equal]. Qed.

Lemma stores_MemLoad (l : list Z) : stores (map MemLoad l) = [].
Proof. induction l; cbn; [reflexivity | assumption]. Qed.

Lemma warnings_MemLoad (l : list Z) : warnings (map MemLoad l) = [].
Proof. induction l; cbn; [reflexivity | assumption]. Qed.

Lemma replies_MemLoad (l : list Z) : replies (map MemLoad l) = [].
Proof. induction l; cbn; [reflexivity | assumption]. Qed.

Lemma stores_MemStore (l : list Z) : stores (map MemStore l) = l.
Proof. induction l; cbn; [reflexivity | now f_equal]. Qed.

Lemma loadBytes_spec (off : Z) (n : nat) (s : State) :
  loadBytes off n s =
    mkRes (peekn (buffer s) off n) s (map MemLoad (span off n)).
Proof.
  revert off. induction n as [|n IH]; intros off.
  - reflexivity.
  - cbn [loadBytes]. unfold bind, load8, ret. cbn [val st tr].
    rewrite IH. cbn [val st tr peekn span map app].
    rewrite app_nil_r. reflexivity.
Qed.

Lemma storeBytes_spec (off : Z) (bs : list Z) (s : State) :
  storeBytes off bs s =
    mkRes tt (mkState (this s) (pokeBytes (buffer s) off bs))
          (map MemStore (span off (length bs))).
Proof.
  revert off s. induction bs as [|b bs IH]; intros off s.
  - destruct s. reflexivity.
  - cbn [storeBytes]. unfold bind, store8. cbn [val st tr].
    rewrite IH. reflexivity.
Qed.

Lemma length_bytes_le (w : nat) (v : Z) : length (bytes_le w v) = w.
Proof. revert v. induction w; intros v; cbn; [reflexivity | now rewrite IHw]. Qed.

Lemma length_bytes_of (host : endian) (w : nat) (v : Z) :
  length (bytes_of host w v) = w.
Proof.
  unfold bytes_of. destruct host; [| rewrite length_rev]; apply length_bytes_le.
Qed.

Lemma load_spec (host : endian) (w : nat) (off : Z) (s : State) :
  load host w off s =
    mkRes (int_of host (peekn (buffer s) off w)) s (map MemLoad (span off w)).
Proof.
  unfold load, bind. rewrite loadBytes_spec. cbn. now rewrite app_nil_r.
Qed.

Lemma store_spec (host : endian) (w : nat) (off v : Z) (s : State) :
  store host w off v s =
    mkRes tt (mkState (this s) (pokeBytes (buffer s) off (bytes_of host w v)))
          (map MemStore (span off w)).
Proof.
  unfold store. rewrite storeBytes_spec, length_bytes_of. reflexivity.
Qed.

Lemma length_pokeBytes (m : list Z) (off : Z) (bs : list Z) :
  length (pokeBytes m off bs) = length m.
Proof.
  revert m off. induction bs as [|b bs IH]; intros m off; cbn.
  - reflexivity.
  - rewrite IH. apply length_poke.
Qed.

(** ** calcChecksum: value and accesses *)

Lemma sumWords_spec (host : endian) (words : Z) (n : nat) (accum : Z) (s : State) :
  0 <= accum < 2 ^ 32 ->
  sumWords host words n accum s =
    mkRes (u32 (accum + wordSum host (buffer s) words n)) s
          (map MemLoad (span words (2 * n))).
Proof.
  revert words accum. induction n as [|n IH]; intros words accum Ha.
  - cbn. unfold ret. rewrite Z.add_0_r, u32_small by exact Ha. reflexivity.
  - cbn [sumWords]. unfold bind. rewrite load_spec. cbn [val st tr].
    rewrite IH by apply u32_range.
    cbn [wordSum peekn]. unfold word. rewrite u32_add_l.
    replace (2 * S n)%nat with (2 + 2 * n)%nat by lia.
    rewrite span_app, map_app. cbn [val st tr].
    change (Z.of_nat 2) with 2. f_equal. f_equal. lia.
Qed.

Lemma accumulate_spec (host : endian) (data len : Z) (s : State) :
  accumulate host data len s =
    mkRes (u32 (wordSum host (buffer s) data (Z.to_nat (len / 2))
                + trailing (buffer s) data len))
          s (map MemLoad (checksumLoads data len)).
Proof.
  unfold accumulate, bind, trailing, checksumLoads.
  rewrite sumWords_spec by lia. cbn [val st tr].
  destruct (len mod 2 =? 0); unfold ret, load8; cbn [val st tr];
    rewrite ?Z.add_0_l, ?Z.add_0_r, ?app_nil_r, ?u32_add_l, ?map_app;
    reflexivity.
Qed.

Lemma calcChecksum_spec (host : endian) (data len : Z) (s : State) :
  calcChecksum host data len s =
    mkRes (checksumValue host (buffer s) data len) s
          (map MemLoad (checksumLoads data len)).
Proof.
  unfold calcChecksum, bind, ret, checksumValue.
  rewrite accumulate_spec. cbn [val st tr]. now rewrite app_nil_r.
Qed.

Lemma checksumLoads_bounds (data len : Z) :
  0 <= len ->
  Forall (fun off => data <= off < data + len) (checksumLoads data len).
Proof.
  intros Hlen. unfold checksumLoads. apply Forall_app. split.
  - apply Forall_forall. intros x Hx. apply span_In in Hx.
    assert (2 * (len / 2) <= len) by (apply Z.mul_div_le; lia).
    assert (0 <= len / 2) by (apply Z.div_pos; lia).
    lia.
  - destruct (Z.eqb_spec (len mod 2) 0) as [E|E]; constructor; [|constructor].
    assert (len <> 0) by (intros ->; apply E; reflexivity). lia.
Qed.

Lemma wordSum_ext (host : endian) (m m' : list Z) (off off' : Z) (n : nat) :
  (forall k, 0 <= k < 2 * Z.of_nat n -> peek m (off + k) = peek m' (off' + k)) ->
  wordSum host m off n = wordSum host m' off' n.
Proof.
  revert off off'. induction n as [|n IH]; intros off off' H.
  - reflexivity.
  - cbn [wordSum]. unfold word.
    assert (E0 : peek m off = peek m' off').
    { specialize (H 0 ltac:(lia)). now rewrite !Z.add_0_r in H. }
    assert (E1 : peek m (off + 1) = peek m' (off' + 1)) by (apply H; lia).
    rewrite E0, E1. f_equal. apply IH.
    intros k Hk. rewrite <- !Z.add_assoc. apply H. lia.
Qed.

(** Changing one aligned word of the summed range changes the sum by the
    difference of the two words. *)
Lemma wordSum_update (host : endian) (m m' : list Z) (data : Z) (n k : nat) :
  (k < n)%nat ->
  let field := data + 2 * Z.of_nat k in
  (forall o, o <> field -> o <> field + 1 -> peek m' o = peek m o) ->
  wordSum host m' data n =
    wordSum host m data n - word host m field + word host m' field.
Proof.
  revert data k. induction n as [|n IH]; intros data k Hk field Hsame; [lia|].
  cbn [wordSum]. destruct k as [|k].
  - subst field. replace (data + 2 * Z.of_nat 0) with data in * by lia.
    rewrite (wordSum_ext host m' m (data + 2) (data + 2) n).
    + lia.
    + intros j Hj. apply Hsame; lia.
  - rewrite (IH (data + 2) k).
    + replace (data + 2 + 2 * Z.of_nat k) with field by (subst field; lia).
      assert (E : word host m' data = word host m data).
      { unfold word. rewrite !Hsame by (subst field; lia). reflexivity. }
      rewrite E. lia.
    + lia.
    + intros o H1 H2. apply Hsame; subst field; lia.
Qed.

Lemma u8_u8 (x : Z) : u8 (u8 x) = u8 x.
Proof. unfold u8. apply Z.mod_mod. lia. Qed.

Lemma u16_u16 (x : Z) : u16 (u16 x) = u16 x.
Proof. unfold u16. apply Z.mod_mod. lia. Qed.

Lemma map_u8_bytes_le (w : nat) (v : Z) : map u8 (bytes_le w v) = bytes_le w v.
Proof.
  revert v. induction w as [|w IH]; intros v; cbn; [reflexivity|].
  now rewrite u8_u8, IH.
Qed.

Lemma map_u8_bytes_of (host : endian) (w : nat) (v : Z) :
  map u8 (bytes_of host w v) = bytes_of host w v.
Proof.
  unfold bytes_of. destruct host.
  - apply map_u8_bytes_le.
  - now rewrite map_rev, map_u8_bytes_le.
Qed.

(** Two bytes stored inside the buffer, read back. *)
Lemma peek_pokeBytes_2 (m : list Z) (off b0 b1 o : Z) :
  0 <= off -> off + 2 <= Z.of_nat (length m) ->
  peek (pokeBytes m off [b0; b1]) o =
    if o =? off then u8 b0 else if o =? off + 1 then u8 b1 else peek m o.
Proof.
  intros H0 H1. cbn [pokeBytes].
  rewrite peek_poke, length_poke.
  replace (0 <=? off + 1) with true by (symmetry; apply Z.leb_le; lia).
  replace (off + 1 <? Z.of_nat (length m)) with true
    by (symmetry; apply Z.ltb_lt; lia).
  rewrite !andb_true_r.
  destruct (Z.eqb_spec o (off + 1)) as [->|Hne1].
  - replace (off + 1 =? off) with false by (symmetry; apply Z.eqb_neq; lia).
    reflexivity.
  - rewrite peek_poke.
    replace (0 <=? off) with true by (symmetry; apply Z.leb_le; lia).
    replace (off <? Z.of_nat (length m)) with true
      by (symmetry; apply Z.ltb_lt; lia).
    rewrite !andb_true_r. reflexivity.
Qed.

Lemma word_store (host : endian) (m : list Z) (off v : Z) :
  0 <= off -> off + 2 <= Z.of_nat (length m) ->
  word host (pokeBytes m off (bytes_of host 2 v)) off = u16 v.
Proof.
  intros H0 H1. rewrite <- (int_of_bytes_of_2 host v).
  rewrite <- (map_u8_bytes_of host 2 v) at 2.
  unfold word.
  assert (L := length_bytes_of host 2 v).
  destruct (bytes_of host 2 v) as [|b0 [|b1 [|? ?]]]; try discriminate L.
  rewrite !peek_pokeBytes_2 by assumption.
  rewrite Z.eqb_refl.
  replace (off + 1 =? off) with false by (symmetry; apply Z.eqb_neq; lia).
  rewrite Z.eqb_refl. reflexivity.
Qed.

Lemma complement16_u16 (x : Z) : u16 (complement16 x) = complement16 x.
Proof. unfold complement16. apply u16_u16. Qed.

(** The round trip for a checksum field at any word of the buffer. *)
Lemma checksum_roundtrip_at (host : endian) (self : PosixPing)
    (buf : list Z) (data len : Z) (k : nat) :
  0 <= data -> 0 <= len -> len mod 2 = 0 ->
  data + len <= Z.of_nat (length buf) ->
  let field := data + 2 * Z.of_nat k in
  field + 2 <= data + len ->
  word host buf field = 0 ->
  let sum := val (calcChecksum host data len (mkState self buf)) in
  let stored := st (store host 2 field sum (mkState self buf)) in
  val (calcChecksum host data len stored) = 0.
Proof.
  intros Hdata Hlen Heven Hfit field Hfield Hzero sum stored.
  subst sum stored. rewrite !calcChecksum_spec, store_spec. cbn [val st buffer].
  unfold checksumValue, trailing. rewrite Heven. cbn [Z.eqb]. rewrite !Z.add_0_r.
  set (n := Z.to_nat (len / 2)).
  set (total := wordSum host buf data n).
  set (sum := complement16 (foldCarry (foldCarry (u32 total)))).
  assert (Hk : (k < n)%nat).
  { subst n field. apply Nat2Z.inj_lt. rewrite Z2Nat.id by (apply Z.div_pos; lia).
    clear - Heven Hfield. Z.div_mod_to_equations. lia. }
  rewrite (wordSum_update host buf _ data n k Hk).
  - fold field. rewrite Hzero, word_store by (subst field; lia).
    subst sum. rewrite complement16_u16, Z.sub_0_r.
    apply checksum_cancel.
  - fold field. intros o H1 H2.
    assert (L := length_bytes_of host 2 sum).
    destruct (bytes_of host 2 sum) as [|b0 [|b1 [|? ?]]]; try discriminate L.
    rewrite peek_pokeBytes_2 by (subst field; lia).
    replace (o =? field) with false by (symmetry; apply Z.eqb_neq; lia).
    replace (o =? field + 1) with false by (symmetry; apply Z.eqb_neq; lia).
    reflexivity.
Qed.

Lemma pair_induction (P : list Z -> Prop) :
  P [] -> (forall a, P [a]) -> (forall a b l, P l -> P (a :: b :: l)) ->
  forall l, P l.
Proof.
  intros H0 H1 H2 l.
  assert (H : P l /\ forall a, P (a :: l)).
  { induction l as [|b l [IH1 IH2]]; split; auto. }
  apply H.
Qed.

Lemma half_SS (k : nat) :
  Z.to_nat (Z.of_nat (S (S k)) / 2) = S (Z.to_nat (Z.of_nat k / 2)).
Proof.
  replace (Z.of_nat (S (S k))) with (Z.of_nat k + 1 * 2) by lia.
  rewrite Z.div_add by lia.
  rewrite Z2Nat.inj_add by (try lia; apply Z.div_pos; lia).
  change (Z.to_nat 1) with 1%nat. lia.
Qed.

Lemma wordSum_words16 (host : endian) (buf : list Z) :
  wordSum host buf 0 (Z.to_nat (Z.of_nat (length buf) / 2)) =
    sumZ (words16 host buf).
Proof.
  induction buf as [|a|a b l IH] using pair_induction; try reflexivity.
  cbn [length]. rewrite half_SS. cbn [wordSum words16 sumZ fold_right].
  fold (sumZ (words16 host l)). rewrite <- IH.
  unfold word at 1. cbn [peek Z.ltb Z.compare Z.to_nat Z.add Pos.to_nat
                         Pos.iter_op Nat.add nth].
  f_equal. apply wordSum_ext. intros k Hk.
  symmetry. etransitivity; [apply (peek_skipn (a :: b :: l) 2 (0 + k)); lia|].
  f_equal.
Qed.

Lemma peek_last (buf : list Z) :
  buf <> [] -> peek buf (Z.of_nat (length buf) - 1) = last buf 0.
Proof.
  intros H. unfold peek.
  assert (0 < Z.of_nat (length buf)) by (destruct buf; [congruence | cbn; lia]).
  replace (Z.of_nat (length buf) - 1 <? 0) with false
    by (symmetry; apply Z.ltb_ge; lia).
  replace (Z.to_nat (Z.of_nat (length buf) - 1)) with (length buf - 1)%nat by lia.
  clear H0. induction buf as [|a [|b l] IH]; [congruence | reflexivity |].
  change (last (a :: b :: l) 0) with (last (b :: l) 0).
  rewrite <- IH by discriminate. cbn. now rewrite Nat.sub_0_r.
Qed.

(** ** onReadyRead: the trace of one wake-up *)

Lemma tr_bind {A B} (c : M A) (f : A -> M B) (s : State) :
  tr (bind c f s) = tr (c s) ++ tr (f (val (c s)) (st (c s))).
Proof. reflexivity. Qed.

Lemma headerLength_range (packet : list Z) : 0 <= headerLength packet <= 60.
Proof.
  unfold headerLength. change 15 with (2 ^ 4 - 1). rewrite land_low by lia.
  pose proof (Z.mod_pos_bound (peek packet Ipv4.version_ihl) (2 ^ 4) ltac:(lia)).
  lia.
Qed.

Lemma receive_unfold (host : endian) (self : PosixPing) (packet : list Z)
    (read errno : Z) :
  read <= 2048 ->
  receive host self packet read errno =
    let hb := headerLength packet in
    if read <? 0 then [Warn (RecvFailed read errno)]
    else if read <? 20 then [Warn (IncompletePacket read)]
    else if negb (ipVersion packet =? 4)
    then [MemLoad 0; MemLoad 0; Warn (InvalidVersion (ipVersion packet))]
    else if (hb <? 20) || (read <? hb) || (read - hb <? 8)
    then [MemLoad 0; MemLoad 0; Warn (InvalidHeaderLength hb read)]
    else if negb (ipProtocol packet =? 1)
    then [MemLoad 0; MemLoad 0; MemLoad 9; MemLoad 9;
          Warn (NonIcmpPacket (ipProtocol packet))]
    else [MemLoad 0; MemLoad 0; MemLoad 9]
         ++ inspectedTrace host self packet read.
Proof.
  intros Hread. cbv zeta.
  unfold receive, onReadyRead, inspectedTrace.
  unfold icmpChecksumResult, icmpType, icmpCode, icmpIdentifier, ipSource.
  unfold ipVersion, ipProtocol.
  assert (Ehb : Z.land (peek packet 0) 15 * 4 = headerLength packet) by reflexivity.
  pose proof (headerLength_range packet) as Hhb.
  set (hb := headerLength packet) in *.
  unfold IcmpEcho.sizeof, Ipv4.sizeof, Ipv4.version_ihl, Ipv4.protocol, Ipv4.src.
  destruct (Z.ltb_spec read 0) as [Hneg|Hpos]; [reflexivity|].
  rewrite (u64_small read) by lia.
  destruct (Z.ltb_spec read 20) as [Hshort|H20]; [reflexivity|].
  cbn [Z.add].
  rewrite tr_bind. cbn [load8 val st tr buffer].
  destruct (negb (Z.shiftr (peek packet 0) 4 =? 4)); [reflexivity|].
  rewrite tr_bind. cbn [load8 val st tr buffer].
  rewrite Ehb.
  assert (Ehdr : (hb <? 20) || (read <? hb) || (u64 (read - hb) <? 8)
                 = (hb <? 20) || (read <? hb) || (read - hb <? 8)).
  { destruct (Z.ltb_spec read hb) as [Hlt|Hge].
    - now rewrite !orb_true_r.
    - rewrite (u64_small (read - hb)) by lia. reflexivity. }
  rewrite Ehdr.
  destruct ((hb <? 20) || (read <? hb) || (read - hb <? 8)) eqn:Ehd;
    [reflexivity|].
  apply orb_false_elim in Ehd. destruct Ehd as [Ehd E3].
  apply orb_false_elim in Ehd. destruct Ehd as [E1 E2].
  apply Z.ltb_ge in E1, E2, E3.
  rewrite tr_bind. cbn [load8 val st tr buffer].
  destruct (negb (peek packet 9 =? 1)); [reflexivity|].
  rewrite (u64_small (read - hb)) by lia.
  rewrite tr_bind, calcChecksum_spec. cbn [val st tr buffer].
  set (sum := checksumValue _ _ _ _).
  set (s0 := {| this := self; buffer := packet |}).
  set (warnCorrupt :=
         if negb (sum =? 0)
         then src <- load host 4 12 ;;
              emit (Warn (CorruptIcmpPacket (ntohl host src)))
         else ret tt).
  rewrite tr_bind.
  assert (Est : st (warnCorrupt s0) = s0).
  { subst warnCorrupt. destruct (negb (sum =? 0)); [|reflexivity].
    unfold bind. rewrite load_spec. reflexivity. }
  assert (Etr : tr (warnCorrupt s0) =
                if sum =? 0 then []
                else map MemLoad (span 12 4)
                     ++ [Warn (CorruptIcmpPacket
                                 (ntohl host (int_of host (peekn packet 12 4))))]).
  { subst warnCorrupt. destruct (sum =? 0); [reflexivity|]. cbn [negb].
    rewrite tr_bind, load_spec. reflexivity. }
  rewrite Est, Etr. subst s0. clear Est Etr warnCorrupt.
  cbn [app]. do 3 f_equal. f_equal. f_equal.
  rewrite tr_bind. cbn [load8 val st tr buffer app]. f_equal.
  destruct (negb (peek packet (hb + IcmpEcho.type) =? 0)); [reflexivity|].
  rewrite tr_bind. cbn [load8 val st tr buffer app]. f_equal.
  destruct (negb (peek packet (hb + IcmpEcho.code) =? 0)); [reflexivity|].
  rewrite tr_bind, load_spec. cbn [val st tr buffer]. f_equal.
  rewrite tr_bind. cbn [member val st tr this app].
  destruct (negb _); [reflexivity|].
  rewrite tr_bind, load_spec. reflexivity.
Qed.

Lemma Forall_loads (P : Z -> Prop) (t : list event) :
  Forall (accessesWithin P) t -> Forall P (loads t).
Proof.
  induction 1 as [|e t He _ IH]; [constructor|].
  destruct e; cbn in *; try assumption. constructor; assumption.
Qed.

Lemma accessesWithin_loads (P : Z -> Prop) (l : list Z) :
  Forall P l -> Forall (accessesWithin P) (map MemLoad l).
Proof. intros H. apply Forall_map. exact H. Qed.

Lemma Forall_span (P : Z -> Prop) (off : Z) (n : nat) :
  (forall x, off <= x < off + Z.of_nat n -> P x) -> Forall P (span off n).
Proof. intros H. apply Forall_forall. intros x Hx. apply H, span_In, Hx. Qed.

(** A datagram that passed the checks is inspected within the bytes
    read. *)
Lemma inspectedTrace_within (host : endian) (self : PosixPing)
    (packet : list Z) (read : Z) :
  passesChecks packet read ->
  Forall (accessesWithin (fun off => 0 <= off < read))
         (inspectedTrace host self packet read).
Proof.
  intros (H20 & Hv & Hhl & Hicmp & Hproto).
  unfold inspectedTrace. cbv zeta.
  unfold IcmpEcho.sizeof, IcmpEcho.type, IcmpEcho.code, IcmpEcho.identifier,
    Ipv4.src in *.
  set (hb := headerLength packet) in *.
  assert (Hsrc : Forall (accessesWithin (fun off => 0 <= off < read))
                        (map MemLoad (span 12 4))).
  { apply accessesWithin_loads, Forall_span. cbn. lia. }
  apply Forall_app. split.
  { apply accessesWithin_loads.
    eapply Forall_impl; [|apply checksumLoads_bounds; lia].
    cbn. intros. lia. }
  apply Forall_app. split.
  { destruct (_ =? 0); [constructor|].
    apply Forall_app. split; [exact Hsrc | repeat constructor]. }
  constructor; [cbn; lia|].
  destruct (negb _); [constructor|].
  constructor; [cbn; lia|].
  destruct (negb _); [constructor|].
  apply Forall_app. split.
  { apply accessesWithin_loads, Forall_span. cbn. lia. }
  destruct (negb _); [constructor|].
  apply Forall_app. split; [exact Hsrc | repeat constructor].
Qed.

Lemma receive_passing (host : endian) (self : PosixPing) (packet : list Z)
    (read errno : Z) :
  read <= 2048 -> passesChecks packet read ->
  receive host self packet read errno =
    [MemLoad 0; MemLoad 0; MemLoad 9] ++ inspectedTrace host self packet read.
Proof.
  intros Hread (H20 & Hv & Hhl & Hicmp & Hproto).
  rewrite receive_unfold by exact Hread. cbv zeta.
  unfold IcmpEcho.sizeof in Hicmp.
  replace (read <? 0) with false by (symmetry; apply Z.ltb_ge; lia).
  replace (read <? 20) with false by (symmetry; apply Z.ltb_ge; lia).
  rewrite Hv, Hproto. cbn [Z.eqb Pos.eqb negb].
  replace (headerLength packet <? 20) with false
    by (symmetry; apply Z.ltb_ge; lia).
  replace (read <? headerLength packet) with false
    by (symmetry; apply Z.ltb_ge; lia).
  replace (read - headerLength packet <? 8) with false
    by (symmetry; apply Z.ltb_ge; lia).
  reflexivity.
Qed.

Ltac trace_simpl :=
  repeat (rewrite ?loads_app, ?stores_app, ?warnings_app, ?replies_app,
            ?loads_MemLoad, ?stores_MemLoad, ?warnings_MemLoad,
            ?replies_MemLoad, ?stores_MemStore, ?app_nil_r;
          cbn [loads stores warnings replies flat_map app]).

(** Closed facts about concrete inputs, by evaluation. *)
Ltac by_evaluation :=
  vm_compute; repeat split;
  solve [reflexivity | discriminate | intro; discriminate].

Lemma replies_inspected (host : endian) (self : PosixPing) (packet : list Z)
    (read : Z) :
  replies (inspectedTrace host self packet read) =
    if (icmpType packet =? 0) && (icmpCode packet =? 0)
       && (icmpIdentifier host packet =? _identifier self)
    then [ipSource host packet] else [].
Proof.
  unfold inspectedTrace. cbv zeta.
  destruct (icmpChecksumResult host self packet read =? 0),
    (icmpType packet =? 0), (icmpCode packet =? 0),
    (icmpIdentifier host packet =? _identifier self);
    cbn [negb andb]; trace_simpl; reflexivity.
Qed.

Lemma warnings_inspected (host : endian) (self : PosixPing) (packet : list Z)
    (read : Z) :
  warnings (inspectedTrace host self packet read) =
    if icmpChecksumResult host self packet read =? 0 then []
    else [CorruptIcmpPacket (ipSource host packet)].
Proof.
  unfold inspectedTrace. cbv zeta.
  destruct (icmpChecksumResult host self packet read =? 0),
    (icmpType packet =? 0), (icmpCode packet =? 0),
    (icmpIdentifier host packet =? _identifier self);
    cbn [negb andb]; trace_simpl; reflexivity.
Qed.

Lemma notOurs_false (host : endian) (self : PosixPing) (packet : list Z) :
  notOurs host self packet ->
  (icmpType packet =? 0) && (icmpCode packet =? 0)
  && (icmpIdentifier host packet =? _identifier self) = false.
Proof.
  intros [H|[H|H]]; apply Z.eqb_neq in H; rewrite H;
    rewrite ?andb_false_r; reflexivity.
Qed.

(** ** sendEchoRequest: the stages of packet construction *)

Lemma bind_run {A B} (c : M A) (f : A -> M B) (s : State) a s1 t1 v s2 t2 :
  c s = mkRes a s1 t1 -> f a s1 = mkRes v s2 t2 ->
  bind c f s = mkRes v s2 (t1 ++ t2).
Proof.
  intros E1 E2. unfold bind. rewrite E1. cbn [val st tr]. rewrite E2.
  reflexivity.
Qed.

Lemma bind_run0 {A B} (c : M A) (f : A -> M B) (s : State) a s1 v s2 t2 :
  c s = mkRes a s1 [] -> f a s1 = mkRes v s2 t2 ->
  bind c f s = mkRes v s2 t2.
Proof. intros E1 E2. apply (bind_run c f s a s1 [] v s2 t2 E1 E2). Qed.

Lemma res_eta {A} (r : Res A) : r = mkRes (val r) (st r) (tr r).
Proof. destruct r. reflexivity. Qed.

Lemma rawPacketSizeOf_eq (p : Z) :
  0 <= p <= INT_MAX - 28 -> rawPacketSizeOf p = 28 + p.
Proof.
  unfold INT_MAX, rawPacketSizeOf, to_int, IcmpEcho.sizeof, ip.sizeof.
  intros H. rewrite u64_small by lia. rewrite Z.mod_small by lia. lia.
Qed.

Lemma packetSizeOf_eq (p : Z) :
  0 <= p <= INT_MAX - 28 -> u64 (packetSizeOf p) = 8 + p.
Proof.
  unfold INT_MAX, packetSizeOf, to_int, IcmpEcho.sizeof. intros H.
  rewrite (u64_small (8 + p)) by lia. rewrite Z.mod_small by lia.
  rewrite u64_small by lia. lia.
Qed.

Lemma resize_spec (self : PosixPing) (p : Z) :
  0 <= p ->
  resize (28 + p) (mkState self []) =
    mkRes tt
      (mkState self (repeat 0 20 ++ repeat 0 8 ++ repeat 0 (Z.to_nat p))) [].
Proof.
  intros Hp. unfold resize. cbn [this].
  replace (Z.to_nat (28 + p)) with (20 + (8 + Z.to_nat p))%nat by lia.
  rewrite !repeat_app. reflexivity.
Qed.

Lemma writeIpHeader_spec (host : endian) (self : PosixPing)
    (address N : Z) (rest : list Z) :
  writeIpHeader host 0 address N (mkState self (repeat 0 20 ++ rest)) =
    mkRes tt (mkState self (ipHeader host self address N ++ rest))
          ipHeaderTrace.
Proof.
  unfold writeIpHeader, ipHeader.
  rewrite <- (map_u8_bytes_of host 2 N).
  rewrite <- (map_u8_bytes_of host 2 (htons host (_identifier self))).
  rewrite <- (map_u8_bytes_of host 2 (htons host 0)).
  rewrite <- (map_u8_bytes_of host 4 (htonl host address)).
  destruct host; reflexivity.
Qed.

Lemma writeIcmpHeader_spec (host : endian) (self : PosixPing)
    (a rest : list Z) :
  length a = 20%nat ->
  writeIcmpHeader host 20 (mkState self (a ++ repeat 0 8 ++ rest)) =
    mkRes tt (mkState self (a ++ icmpHeader host self ++ rest))
          icmpHeaderTrace.
Proof.
  intros Ha.
  do 20 (destruct a as [|? a]; [discriminate Ha|]).
  destruct a; [|discriminate Ha]. clear Ha.
  unfold writeIcmpHeader, icmpHeader.
  rewrite <- (map_u8_bytes_of host 2 (htons host (_identifier self))).
  rewrite <- (map_u8_bytes_of host 2 (htons host (_nextSequence self))).
  destruct host; reflexivity.
Qed.

Lemma length_ipHeader (host : endian) (self : PosixPing) (address N : Z) :
  length (ipHeader host self address N) = 20%nat.
Proof. unfold ipHeader. rewrite !length_app, !length_bytes_of. reflexivity. Qed.

Lemma length_icmpHeader (host : endian) (self : PosixPing) :
  length (icmpHeader host self) = 8%nat.
Proof. unfold icmpHeader. rewrite !length_app, !length_bytes_of. reflexivity. Qed.

Lemma fillPayload_spec (packet i : Z) (n : nat) (s : State) :
  fillPayload packet i n s =
    mkRes tt (mkState (this s) (fillBytes (buffer s) packet i n))
          (map MemStore (span (packet + (IcmpEcho.sizeof + i)) n)).
Proof.
  revert i s. induction n as [|n IH]; intros i s.
  - destruct s. reflexivity.
  - cbn [fillPayload]. unfold bind, store8. cbn [val st tr].
    rewrite IH. cbn [val st tr this buffer fillBytes span map app].
    do 4 f_equal. lia.
Qed.

Lemma length_fillBytes (m : list Z) (packet i : Z) (n : nat) :
  length (fillBytes m packet i n) = length m.
Proof.
  revert m i. induction n as [|n IH]; intros m i; cbn; [reflexivity|].
  rewrite IH. apply length_poke.
Qed.

Lemma peek_fillBytes_below (m : list Z) (packet i : Z) (n : nat) (o : Z) :
  o < packet + (IcmpEcho.sizeof + i) ->
  peek (fillBytes m packet i n) o = peek m o.
Proof.
  unfold IcmpEcho.sizeof.
  revert m i. induction n as [|n IH]; intros m i Ho; cbn [fillBytes];
    [reflexivity|].
  unfold IcmpEcho.sizeof. rewrite IH by lia. apply peek_poke_other. lia.
Qed.

Lemma peek_pokeBytes_outside (m : list Z) (off : Z) (bs : list Z) (o : Z) :
  o < off \/ off + Z.of_nat (length bs) <= o ->
  peek (pokeBytes m off bs) o = peek m o.
Proof.
  revert m off. induction bs as [|b bs IH]; intros m off Ho; cbn [pokeBytes];
    [reflexivity|].
  cbn [length] in Ho. rewrite IH by lia. apply peek_poke_other. lia.
Qed.

Lemma writeTimestamp_spec (host : endian) (os : platform) (packet : Z)
    (env : SendEnv) (s : State) :
  let ts := TimestampField os in
  writeTimestamp host os packet env s =
    mkRes tt
      (mkState (this s)
         (pokeBytes (pokeBytes (buffer s) (packet + IcmpEcho.sizeof)
                               (bytes_of host ts (tv_sec env)))
                    (packet + IcmpEcho.sizeof + Z.of_nat ts)
                    (bytes_of host ts (tv_usec env))))
      (map MemStore (span (packet + IcmpEcho.sizeof) ts
                     ++ span (packet + IcmpEcho.sizeof + Z.of_nat ts) ts)).
Proof.
  intros ts. unfold writeTimestamp, bind. rewrite !store_spec, map_app.
  reflexivity.
Qed.

(** A call on an open socket with a payload size the buffer can be sized
    for: the packet is built as [checksummedPacket], the sequence number is
    consumed, and lines 160-202 run on the result. *)
Lemma sendEchoRequest_run (host : endian) (os : platform) (self : PosixPing)
    (address p : Z) (allowFragment : bool) (env : SendEnv) :
  isOpen (_icmpSocket self) = true -> 0 <= p <= INT_MAX - 28 ->
  let s4 := mkState (incremented self)
                    (checksummedPacket host os self address p env) in
  let r := sendTail host os address (28 + p) allowFragment env s4 in
  sendEchoRequest host os address p allowFragment env (mkState self []) =
    mkRes (val r) (st r) (buildTrace os p ++ tr r).
Proof.
  intros Hopen Hp s4 r.
  unfold buildTrace. cbv zeta.
  unfold sendEchoRequest.
  apply (bind_run0 _ _ (mkState self []) (_icmpSocket self) (mkState self [])
           _ _ _ eq_refl).
  rewrite Hopen. cbn [negb].
  rewrite rawPacketSizeOf_eq, packetSizeOf_eq by exact Hp.
  replace (28 + p <? 0) with false by (symmetry; apply Z.ltb_ge; lia).
  cbv zeta. change (0 + ip.sizeof) with 20.
  apply (bind_run0 _ _ _ _ _ _ _ _ (resize_spec self p (proj1 Hp))).
  rewrite <- !app_assoc.
  apply (bind_run _ _ _ _ _ _ _ _ _
           (writeIpHeader_spec host self address (28 + p) _)).
  apply (bind_run _ _ _ _ _ _ _ _ _
           (writeIcmpHeader_spec host self _ _ (length_ipHeader _ _ _ _))).
  apply (bind_run0 _ _ (mkState self _) tt
           (mkState (incremented self)
              (ipHeader host self address (28 + p) ++ icmpHeader host self
               ++ repeat 0 (Z.to_nat p))) _ _ _ eq_refl).
  apply (bind_run _ _ _ _ _ _ _ _ _ (fillPayload_spec 20 0 _ _)).
  cbn [this buffer].
  apply (bind_run _ _ _ _ _ _ _ _ _ (writeTimestamp_spec host os 20 env _)).
  apply (bind_run _ _ _ _ _ _ _ _ _ (calcChecksum_spec host 20 (8 + p) _)).
  apply (bind_run _ _ _ _ _ _ _ _ _ (store_spec host 2 _ _ _)).
  cbn [this buffer].
  subst r s4. unfold sendTail, checksummedPacket, builtChecksum, builtPacket.
  cbv zeta.
  change (20 + IcmpEcho.sizeof) with 28. change (20 + IcmpEcho.checksum) with 22.
  apply res_eta.
Qed.

(** Lines 160-202 leave the object alone, write at most the [ip_off] field,
    and hand [sendto] the buffer as it then is. *)
Lemma sendTail_spec (host : endian) (os : platform) (address N : Z)
    (allowFragment : bool) (env : SendEnv) (s : State) :
  let r := sendTail host os address N allowFragment env s in
  let flag := match os with Mac => IP_DF | Linux => htons host IP_DF end in
  this (st r) = this s /\
  buffer (st r) =
    (if allowFragment then buffer s
     else pokeBytes (buffer s) 6 (bytes_of host 2 flag)) /\
  stores (tr r) = (if allowFragment then [] else [6; 7]) /\
  loads (tr r) = [] /\
  (exists b, val r = Returned b) /\
  (datagrams (tr r) = []
   \/ datagrams (tr r) = [(firstn (Z.to_nat N) (buffer (st r)), address)]) /\
  (val r = Returned true ->
   datagrams (tr r) = [(firstn (Z.to_nat N) (buffer (st r)), address)]).
Proof.
  cbv zeta. unfold sendTail, setDontFragment, transmit, bind.
  destruct allowFragment, os; cbn [negb];
    rewrite ?store_spec; unfold emit, ret;
    repeat (cbn [negb val st tr this buffer];
            match goal with
            | |- context [if ?c then _ else _] => destruct c
            end);
    cbn [negb val st tr this buffer]; trace_simpl;
    (repeat split; eauto; try discriminate).
Qed.

(** ** sendEchoRequest: what happens to the object *)

Lemma preserves_ret {A} (a : A) : preservesThis (ret a).
Proof. intros s. reflexivity. Qed.

Lemma preserves_emit (e : event) : preservesThis (emit e).
Proof. intros s. reflexivity. Qed.

Lemma preserves_member {A} (f : PosixPing -> A) : preservesThis (member f).
Proof. intros s. reflexivity. Qed.

Lemma preserves_load8 (off : Z) : preservesThis (load8 off).
Proof. intros s. reflexivity. Qed.

Lemma preserves_store8 (off v : Z) : preservesThis (store8 off v).
Proof. intros s. reflexivity. Qed.

Lemma preserves_resize (n : Z) : preservesThis (resize n).
Proof. intros s. reflexivity. Qed.

Lemma increments_nextSequence : thisBecomes incremented incrementNextSequence.
Proof. intros s. reflexivity. Qed.

Lemma preserves_then {A B} (g : PosixPing -> PosixPing) (c : M A)
    (f : A -> M B) :
  preservesThis c -> (forall a, thisBecomes g (f a)) ->
  thisBecomes g (bind c f).
Proof.
  intros Hc Hf s. unfold bind. cbn [st]. rewrite Hf, Hc. reflexivity.
Qed.

Lemma then_preserves {A B} (g : PosixPing -> PosixPing) (c : M A)
    (f : A -> M B) :
  thisBecomes g c -> (forall a, preservesThis (f a)) ->
  thisBecomes g (bind c f).
Proof.
  intros Hc Hf s. unfold bind. cbn [st]. rewrite Hf, Hc. reflexivity.
Qed.

Lemma preserves_bind {A B} (c : M A) (f : A -> M B) :
  preservesThis c -> (forall a, preservesThis (f a)) ->
  preservesThis (bind c f).
Proof. apply preserves_then. Qed.

Lemma preserves_store (host : endian) (w : nat) (off v : Z) :
  preservesThis (store host w off v).
Proof. intros s. rewrite store_spec. reflexivity. Qed.

Lemma preserves_calcChecksum (host : endian) (data len : Z) :
  preservesThis (calcChecksum host data len).
Proof. intros s. rewrite calcChecksum_spec. reflexivity. Qed.

Lemma preserves_fillPayload (packet i : Z) (n : nat) :
  preservesThis (fillPayload packet i n).
Proof. intros s. rewrite fillPayload_spec. reflexivity. Qed.

Lemma preserves_writeTimestamp (host : endian) (os : platform) (packet : Z)
    (env : SendEnv) :
  preservesThis (writeTimestamp host os packet env).
Proof. intros s. rewrite writeTimestamp_spec. reflexivity. Qed.

Lemma preserves_if {A} (b : bool) (c1 c2 : M A) :
  preservesThis c1 -> preservesThis c2 ->
  preservesThis (if b then c1 else c2).
Proof. intros H1 H2. destruct b; assumption. Qed.

Ltac preserves :=
  repeat match goal with
  | |- preservesThis (bind _ _) => apply preserves_bind; [|intros ?]
  | |- preservesThis (if _ then _ else _) => apply preserves_if
  | |- preservesThis (ret _) => apply preserves_ret
  | |- preservesThis (emit _) => apply preserves_emit
  | |- preservesThis (member _) => apply preserves_member
  | |- preservesThis (load8 _) => apply preserves_load8
  | |- preservesThis (store8 _ _) => apply preserves_store8
  | |- preservesThis (store _ _ _ _) => apply preserves_store
  | |- preservesThis (calcChecksum _ _ _) => apply preserves_calcChecksum
  | |- preservesThis (fillPayload _ _ _) => apply preserves_fillPayload
  | |- preservesThis (writeTimestamp _ _ _ _) =>
      apply preserves_writeTimestamp
  | |- preservesThis (resize _) => apply preserves_resize
  end.

Lemma preserves_writeIpHeader (host : endian) (ip address N : Z) :
  preservesThis (writeIpHeader host ip address N).
Proof. unfold writeIpHeader, set_ip_v, set_ip_hl. preserves. Qed.

Lemma preserves_writeIcmpHeader (host : endian) (pEcho : Z) :
  preservesThis (writeIcmpHeader host pEcho).
Proof. unfold writeIcmpHeader. preserves. Qed.

Lemma preserves_setDontFragment (host : endian) (os : platform) (ip : Z)
    (env : SendEnv) :
  preservesThis (setDontFragment host os ip env).
Proof. unfold setDontFragment. destruct os; preserves. Qed.

Lemma preserves_transmit (os : platform) (address N : Z) (env : SendEnv) :
  preservesThis (transmit os address N env).
Proof.
  intros s. unfold transmit.
  match goal with
  | |- this (st (?c s)) = _ => enough (H : preservesThis c) by apply H
  end.
  preserves.
Qed.

(** Whatever the payload size, the environment and the buffer: once the
    socket is found open and the buffer is sized, the call changes the
    object by exactly one [++_nextSequence]. *)
Lemma sendEchoRequest_this (host : endian) (os : platform)
    (address p : Z) (allowFragment : bool) (env : SendEnv) (s : State) :
  isOpen (_icmpSocket (this s)) = true -> 0 <= rawPacketSizeOf p ->
  this (st (sendEchoRequest host os address p allowFragment env s)) =
    incremented (this s).
Proof.
  intros Hopen Hsize. unfold sendEchoRequest.
  unfold bind at 1. cbn [member val st]. rewrite Hopen. cbn [negb].
  replace (rawPacketSizeOf p <? 0) with false
    by (symmetry; apply Z.ltb_ge; exact Hsize).
  cbv zeta.
  match goal with
  | |- this (st (?body s)) = _ =>
      enough (H : thisBecomes incremented body) by apply H
  end.
  apply preserves_then; [apply preserves_resize | intros _].
  apply preserves_then; [apply preserves_writeIpHeader | intros _].
  apply preserves_then; [apply preserves_writeIcmpHeader | intros _].
  apply then_preserves; [apply increments_nextSequence | intros _].
  repeat match goal with
  | |- preservesThis (setDontFragment _ _ _ _) =>
      apply preserves_setDontFragment
  | |- preservesThis (transmit _ _ _ _) => apply preserves_transmit
  | _ => progress preserves
  end.
Qed.

(** ** sendEchoRequest: calls seen from outside *)

Lemma call_prober (host : endian) (os : platform) (self : PosixPing)
    (c : SendCall) :
  reachesConstruction self c = true ->
  prober (call host os self c) = incremented self.
Proof.
  unfold reachesConstruction. intros H. apply andb_prop in H.
  destruct H as [H Hsize]. apply andb_prop in H. destruct H as [Hopen _].
  apply Z.leb_le in Hsize.
  unfold call. cbn [prober]. apply sendEchoRequest_this; assumption.
Qed.

Lemma sendAll_prober (host : endian) (os : platform) (cs : list SendCall) :
  forall self,
  0 <= _nextSequence self < 2 ^ 16 ->
  forallb (reachesConstruction self) cs = true ->
  snd (sendAll host os self cs) =
    mkPosixPing (_identifier self)
                (u16 (_nextSequence self + Z.of_nat (length cs)))
                (_icmpSocket self).
Proof.
  induction cs as [|c cs IH]; intros self Hseq Hall.
  - cbn. rewrite Z.add_0_r, u16_small by exact Hseq. destruct self. reflexivity.
  - cbn [forallb] in Hall. apply andb_prop in Hall. destruct Hall as [Hc Hcs].
    cbn [sendAll]. rewrite (call_prober host os self c Hc).
    destruct (sendAll host os (incremented self) cs) as [rs final] eqn:E.
    cbn [snd]. change final with (snd (rs, final)). rewrite <- E.
    rewrite IH.
    + cbn [incremented _identifier _nextSequence _icmpSocket length].
      f_equal. unfold u16. rewrite Zplus_mod_idemp_l. f_equal. lia.
    + cbn. apply u16_range.
    + exact Hcs.
Qed.

Lemma call_closed (host : endian) (os : platform) (self : PosixPing)
    (c : SendCall) :
  isOpen (_icmpSocket self) = false ->
  call host os self c = mkSendResult (Returned false) self [] [].
Proof.
  intros H. unfold call, sendEchoRequest.
  rewrite (bind_run0 _ _ _ (_icmpSocket self) (mkState self [])
             (Returned false) (mkState self []) []); [reflexivity .. |].
  rewrite H. reflexivity.
Qed.

Lemma call_run (host : endian) (os : platform) (self : PosixPing)
    (c : SendCall) :
  isOpen (_icmpSocket self) = true ->
  0 <= payloadSize c <= INT_MAX - 28 ->
  let s4 := mkState (incremented self)
              (checksummedPacket host os self (address c) (payloadSize c)
                                 (env c)) in
  let r := sendTail host os (address c) (28 + payloadSize c)
                    (allowFragment c) (env c) s4 in
  call host os self c =
    mkSendResult (val r) (this (st r)) (buffer (st r))
                 (buildTrace os (payloadSize c) ++ tr r).
Proof.
  intros Hopen Hp s4 r. unfold call.
  rewrite (sendEchoRequest_run host os self _ _ _ _ Hopen Hp).
  reflexivity.
Qed.

Lemma stores_buildTrace (os : platform) (p : Z) :
  stores (buildTrace os p) =
    span 12 4 ++ [0; 0] ++ span 1 11 ++ span 16 4 ++ span 20 8
    ++ span 28 (Z.to_nat p)
    ++ (span 28 (TimestampField os)
        ++ span (28 + Z.of_nat (TimestampField os)) (TimestampField os))
    ++ span 22 2.
Proof.
  unfold buildTrace, ipHeaderTrace, icmpHeaderTrace. cbv zeta.
  rewrite !stores_app, !stores_MemStore, stores_MemLoad. reflexivity.
Qed.

Lemma length_checksummedPacket (host : endian) (os : platform)
    (self : PosixPing) (address p : Z) (env : SendEnv) :
  0 <= p ->
  Z.of_nat (length (checksummedPacket host os self address p env)) = 28 + p.
Proof.
  intros Hp. unfold checksummedPacket, builtPacket. cbv zeta.
  rewrite !length_pokeBytes, length_fillBytes, !length_app, length_ipHeader,
    length_icmpHeader, repeat_length. lia.
Qed.

Lemma timestamp_span (os : platform) (k : Z) :
  0 <= k < 2 * Z.of_nat (TimestampField os) ->
  In (28 + k) (span 28 (TimestampField os)
               ++ span (28 + Z.of_nat (TimestampField os)) (TimestampField os)).
Proof.
  intros Hk. apply in_or_app.
  destruct (Z.ltb_spec k (Z.of_nat (TimestampField os))).
  - left. apply span_In. lia.
  - right. apply span_In. lia.
Qed.

Lemma peek_app_l (a b : list Z) (o : Z) :
  o < Z.of_nat (length a) -> peek (a ++ b) o = peek a o.
Proof.
  intros H. unfold peek. destruct (o <? 0) eqn:E; [reflexivity|].
  apply Z.ltb_ge in E. apply app_nth1. lia.
Qed.

Lemma peekn_ext (m m' : list Z) (off : Z) (n : nat) :
  (forall o, off <= o < off + Z.of_nat n -> peek m o = peek m' o) ->
  peekn m off n = peekn m' off n.
Proof.
  revert off. induction n as [|n IH]; intros off H; [reflexivity|].
  cbn [peekn]. rewrite (H off) by lia. f_equal. apply IH.
  intros o Ho. apply H. lia.
Qed.

Lemma checksumValue_ext (host : endian) (m m' : list Z) (data data' len : Z) :
  0 <= len ->
  (forall k, 0 <= k < len -> peek m (data + k) = peek m' (data' + k)) ->
  checksumValue host m data len = checksumValue host m' data' len.
Proof.
  intros Hlen H. unfold checksumValue.
  assert (Hhalf : 0 <= 2 * (len / 2) <= len).
  { split; [apply Z.mul_nonneg_nonneg; [lia | apply Z.div_pos; lia]
           | apply Z.mul_div_le; lia]. }
  rewrite (wordSum_ext host m m' data data').
  - unfold trailing. destruct (Z.eqb_spec (len mod 2) 0) as [E|E]; [reflexivity|].
    assert (len <> 0) by (intros ->; apply E; reflexivity).
    rewrite (H (len - 1)) by lia. reflexivity.
  - intros k Hk. apply H. rewrite Z2Nat.id in Hk by (apply Z.div_pos; lia). lia.
Qed.

(** The fields of the two headers as the stages leave them. *)
Lemma header_fields (host : endian) (self : PosixPing) (address N : Z) :
  let h := ipHeader host self address N ++ icmpHeader host self in
  peek h 0 = 69 /\
  peekn h 2 2 = bytes_of host 2 N /\
  peekn h 4 2 = bytes_of host 2 (htons host (_identifier self)) /\
  peek h 8 = 255 /\ peek h 9 = 1 /\
  peekn h 16 4 = bytes_of host 4 (htonl host address) /\
  peek h 20 = 8 /\ peek h 21 = 0 /\
  peek h 22 = 0 /\ peek h 23 = 0 /\
  peekn h 24 2 = bytes_of host 2 (htons host (_identifier self)) /\
  peekn h 26 2 = bytes_of host 2 (htons host (_nextSequence self)).
Proof. destruct host; repeat split; reflexivity. Qed.

Lemma peek_builtPacket (host : endian) (os : platform) (self : PosixPing)
    (address p : Z) (env : SendEnv) (o : Z) :
  o < 28 ->
  peek (builtPacket host os self address p env) o =
    peek (ipHeader host self address (28 + p) ++ icmpHeader host self) o.
Proof.
  intros Ho. unfold builtPacket. cbv zeta.
  rewrite !peek_pokeBytes_outside by lia.
  rewrite peek_fillBytes_below by (unfold IcmpEcho.sizeof; lia).
  rewrite app_assoc. apply peek_app_l.
  rewrite length_app, length_ipHeader, length_icmpHeader. lia.
Qed.

Lemma datagrams_app (t1 t2 : list event) :
  datagrams (t1 ++ t2) = datagrams t1 ++ datagrams t2.
Proof. apply flat_map_app. Qed.

Lemma datagrams_MemLoad (l : list Z) : datagrams (map MemLoad l) = [].
Proof. induction l; cbn; [reflexivity | assumption]. Qed.

Lemma datagrams_MemStore (l : list Z) : datagrams (map MemStore l) = [].
Proof. induction l; cbn; [reflexivity | assumption]. Qed.

Lemma datagrams_buildTrace (os : platform) (p : Z) :
  datagrams (buildTrace os p) = [].
Proof.
  unfold buildTrace, ipHeaderTrace, icmpHeaderTrace. cbv zeta.
  rewrite !datagrams_app, !datagrams_MemStore, datagrams_MemLoad.
  reflexivity.
Qed.

Lemma datagram_whole (d : list Z) (n : Z) :
  Z.of_nat (length d) = n -> firstn (Z.to_nat n) d = d.
Proof. intros H. apply firstn_all2. lia. Qed.


(** * Properties of the specification *)

(** C2. Checksum round trip: for a buffer of even length whose 16-bit
    checksum field (the [checksum] member of [IcmpEcho]) reads zero,
    storing the result of [calcChecksum] over the buffer into that field and
    running [calcChecksum] over the whole modified buffer yields zero.  The
    object [self] the const member function is called on is arbitrary. *)
Theorem checksum_roundtrip (host : endian) (self : PosixPing) (buf : list Z) :
  let len := Z.of_nat (length buf) in
  len mod 2 = 0 ->
  IcmpEcho.checksum + 2 <= len ->
  val (load host 2 IcmpEcho.checksum (mkState self buf)) = 0 ->
  let sum := val (calcChecksum host 0 len (mkState self buf)) in
  let stored := st (store host 2 IcmpEcho.checksum sum (mkState self buf)) in
  val (calcChecksum host 0 len stored) = 0.
Proof.
  intros len Heven Hfield Hzero.
  rewrite load_spec in Hzero. unfold IcmpEcho.checksum in *.
  apply (checksum_roundtrip_at host self buf 0 len 1); try lia.
  exact Hzero.
Qed.

Lemma checksum_roundtrip_witness :
  let self := mkPosixPing 4660 7 (Fd 3) in
  let buf := [8; 0; 0; 0; 18; 52; 0; 7; 1; 2; 3; 4] in
  let sum := val (calcChecksum LittleEndian 0 12 (mkState self buf)) in
  let stored :=
    st (store LittleEndian 2 IcmpEcho.checksum sum (mkState self buf)) in
  val (calcChecksum LittleEndian 0 12 stored) = 0.
Proof.
  intros self buf.
  apply (checksum_roundtrip LittleEndian self buf); [reflexivity | | reflexivity].
  cbn. lia.
Defined.

(** C9. Odd-length handling: for a buffer of odd length the accumulator of
    [calcChecksum] is the sum of all complete 16-bit words plus the final
    byte as a standalone value, the result is the folded complement of that
    sum, and the final byte is read exactly once. *)
Theorem odd_length_trailing_byte (host : endian) (self : PosixPing)
    (buf : list Z) :
  let len := Z.of_nat (length buf) in
  len mod 2 = 1 ->
  let accum := u32 (sumZ (words16 host buf) + last buf 0) in
  let r := calcChecksum host 0 len (mkState self buf) in
  val (accumulate host 0 len (mkState self buf)) = accum /\
  val r = complement16 (foldCarry (foldCarry accum)) /\
  count_occ Z.eq_dec (loads (tr r)) (len - 1) = 1%nat.
Proof.
  intros len Hodd accum r. subst accum r.
  assert (Hne : buf <> []) by (intros ->; discriminate Hodd).
  rewrite calcChecksum_spec, accumulate_spec. cbn [val tr buffer].
  unfold checksumValue, trailing, checksumLoads. fold len. rewrite Hodd. cbn [Z.eqb].
  rewrite wordSum_words16. cbn [Z.add]. fold len.
  assert (E : peek buf (len - 1) = last buf 0) by (apply peek_last; exact Hne).
  rewrite !E. repeat split.
  rewrite loads_MemLoad, count_occ_app.
  rewrite (proj1 (count_occ_not_In Z.eq_dec _ _)).
  - cbn. destruct (Z.eq_dec (len - 1) (len - 1)); [reflexivity | congruence].
  - intros Hin. apply span_In in Hin.
    assert (2 * (len / 2) <= len - 1) by (clear - Hodd; Z.div_mod_to_equations; lia).
    assert (0 <= len / 2) by (apply Z.div_pos; lia).
    lia.
Qed.

Lemma odd_length_trailing_byte_witness :
  let self := mkPosixPing 4660 7 (Fd 3) in
  let buf := [1; 2; 3; 4; 5] in
  val (accumulate BigEndian 0 5 (mkState self buf)) = 1035.
Proof.
  intros self buf.
  exact (proj1 (odd_length_trailing_byte BigEndian self buf eq_refl)).
Defined.

(** C1. Malformed-packet rejection.  Whatever the array holds, every byte
    [onReadyRead] reads lies within the [read] bytes that [recv] delivered.
    If the datagram is shorter than 20 bytes, or its version nibble is not
    4, or its header-length nibble encodes fewer than 20 bytes, or the header
    length exceeds the bytes read, or fewer than the 8 bytes of the ICMP echo
    header remain after it, then no [receivedReply] is emitted, the call
    ends with one warning, and the only byte it read is the version /
    header-length byte at offset 0 (none at all when fewer than 20 bytes
    were read): no field at a computed offset is read before the length
    checks have passed. *)
Theorem malformed_packet_rejected (host : endian) (self : PosixPing)
    (packet : list Z) (read errno : Z) :
  read <= 2048 ->
  let t := receive host self packet read errno in
  Forall (fun off => 0 <= off < read) (loads t) /\
  (malformed packet read ->
     replies t = [] /\
     (exists w, warnings t = [w]) /\
     Forall (fun off => off = Ipv4.version_ihl) (loads t) /\
     (read < 20 -> loads t = [])).
Proof.
  intros Hread t. subst t. rewrite receive_unfold by exact Hread. cbv zeta.
  unfold malformed, IcmpEcho.sizeof, Ipv4.version_ihl.
  destruct (Z.ltb_spec read 0) as [Hneg|Hpos].
  { cbn. repeat split; eauto. }
  destruct (Z.ltb_spec read 20) as [Hshort|H20].
  { cbn. repeat split; eauto. }
  destruct (Z.eqb_spec (ipVersion packet) 4) as [Hv|Hv]; cbn [negb].
  2:{ cbn. repeat split; eauto; try lia; repeat constructor; lia. }
  destruct ((headerLength packet <? 20) || (read <? headerLength packet)
            || (read - headerLength packet <? 8)) eqn:Ehd.
  { cbn. repeat split; eauto; try lia; repeat constructor; lia. }
  apply orb_false_elim in Ehd. destruct Ehd as [Ehd E3].
  apply orb_false_elim in Ehd. destruct Ehd as [E1 E2].
  apply Z.ltb_ge in E1, E2, E3.
  split; [|intros [H|[H|[H|[H|H]]]]; exfalso; lia].
  destruct (Z.eqb_spec (ipProtocol packet) 1) as [Hp|Hp]; cbn [negb].
  2:{ cbn. repeat constructor; lia. }
  apply Forall_loads, Forall_app. split.
  - repeat constructor; cbn; lia.
  - apply inspectedTrace_within. unfold passesChecks, IcmpEcho.sizeof. lia.
Qed.

Lemma malformed_packet_rejected_witness :
  let self := mkPosixPing 4660 7 (Fd 3) in
  let packet := [69; 0; 0; 0; 0; 0; 0; 0; 64; 1; 0; 0; 10; 0; 0; 1;
                 192; 168; 0; 2; 0; 0; 237; 203; 18; 52; 0; 0] in
  replies (receive LittleEndian self packet 27 0) = [].
Proof.
  intros self packet.
  destruct (malformed_packet_rejected LittleEndian self packet 27 0) as [_ H];
    [lia|].
  refine (proj1 (H _)).
  right; right; right; right. by_evaluation.
Defined.

(** C3, amended.  For a datagram that passes the length / version /
    protocol checks: if the ICMP type is not 0, or the code is not 0, or the
    embedded identifier is not the prober's, no [receivedReply] is emitted
    and the rejection itself logs nothing; the only warning the call can log
    is the corrupt-packet warning of the checksum validation that precedes
    it, logged exactly when that validation is nonzero.  Consequently, of
    two probers with different identifiers, neither emits [receivedReply]
    for a reply that carries the identifier of the other. *)
Theorem mismatch_dropped (host : endian) (packet : list Z) (read errno : Z) :
  read <= 2048 -> passesChecks packet read ->
  (forall self, notOurs host self packet ->
     let t := receive host self packet read errno in
     replies t = [] /\
     warnings t =
       if icmpChecksumResult host self packet read =? 0 then []
       else [CorruptIcmpPacket (ipSource host packet)]) /\
  (forall a b, _identifier a <> _identifier b ->
     (icmpIdentifier host packet = _identifier b ->
        replies (receive host a packet read errno) = []) /\
     (icmpIdentifier host packet = _identifier a ->
        replies (receive host b packet read errno) = [])).
Proof.
  intros Hread Hpass.
  assert (Hdrop : forall self, notOurs host self packet ->
            replies (receive host self packet read errno) = []).
  { intros self Hnot. rewrite receive_passing by assumption.
    rewrite replies_app, replies_inspected, notOurs_false by exact Hnot.
    reflexivity. }
  split.
  - intros self Hnot t. subst t. split; [apply Hdrop; exact Hnot|].
    rewrite receive_passing by assumption.
    rewrite warnings_app, warnings_inspected. reflexivity.
  - intros a b Hab. split; intros Hid; apply Hdrop; right; right; congruence.
Qed.

Lemma mismatch_dropped_witness :
  let self := mkPosixPing 4660 7 (Fd 3) in
  let packet := [69; 0; 0; 0; 0; 0; 0; 0; 64; 1; 0; 0; 10; 0; 0; 1;
                 192; 168; 0; 2; 8; 0; 229; 196; 18; 52; 0; 7] in
  replies (receive LittleEndian self packet 28 0) = [].
Proof.
  intros self packet.
  refine (proj1 (proj1 (mismatch_dropped LittleEndian packet 28 0 _ _) self _)).
  - lia.
  - by_evaluation.
  - left. by_evaluation.
Defined.

(** C3 as stated fails: a datagram that passes the checks, is not an echo
    reply (type 8) and has a wrong checksum is dropped, but the call logs the
    corrupt-packet warning. *)
Lemma silent_drop_counterexample :
  let self := mkPosixPing 4660 7 (Fd 3) in
  let packet := [69; 0; 0; 0; 0; 0; 0; 0; 64; 1; 0; 0; 10; 0; 0; 1;
                 192; 168; 0; 2; 8; 0; 0; 0; 18; 52; 0; 7] in
  let t := receive LittleEndian self packet 28 0 in
  passesChecks packet 28 /\ icmpType packet <> 0 /\
  ~ (replies t = [] /\ warnings t = []).
Proof.
  cbv zeta. split; [|split].
  - by_evaluation.
  - by_evaluation.
  - intros [_ H]. vm_compute in H. discriminate H.
Qed.

(** C4. Tolerated checksum mismatch.  For a datagram that passes the length
    / version / protocol checks and whose checksum validation (over the
    bytes from the IP header length to the end of the read, checksum field
    included) is nonzero, the call logs the corrupt-packet warning and goes
    on: [receivedReply] is emitted with the source address when type, code
    and identifier match, and is not emitted when one of them does not. *)
Theorem corrupt_checksum_tolerated (host : endian) (self : PosixPing)
    (packet : list Z) (read errno : Z) :
  read <= 2048 -> passesChecks packet read ->
  icmpChecksumResult host self packet read <> 0 ->
  let t := receive host self packet read errno in
  warnings t = [CorruptIcmpPacket (ipSource host packet)] /\
  (icmpType packet = 0 -> icmpCode packet = 0 ->
   icmpIdentifier host packet = _identifier self ->
   replies t = [ipSource host packet]) /\
  (notOurs host self packet -> replies t = []).
Proof.
  intros Hread Hpass Hsum t. subst t.
  rewrite receive_passing by assumption.
  rewrite warnings_app, replies_app, warnings_inspected, replies_inspected.
  apply Z.eqb_neq in Hsum. rewrite Hsum.
  split; [reflexivity|]. split.
  - intros -> -> ->. rewrite !Z.eqb_refl. reflexivity.
  - intros Hnot. rewrite notOurs_false by exact Hnot. reflexivity.
Qed.

Lemma corrupt_checksum_tolerated_witness :
  let self := mkPosixPing 4660 7 (Fd 3) in
  let packet := [69; 0; 0; 0; 0; 0; 0; 0; 64; 1; 0; 0; 10; 0; 0; 1;
                 192; 168; 0; 2; 0; 0; 0; 0; 18; 52; 0; 7; 9; 9] in
  replies (receive LittleEndian self packet 30 0) = [167772161].
Proof.
  intros self packet.
  refine (proj1 (proj2 (corrupt_checksum_tolerated LittleEndian self packet
                          30 0 _ _ _)) _ _ _).
  - lia.
  - by_evaluation.
  - by_evaluation.
  - reflexivity.
  - reflexivity.
  - reflexivity.
Defined.



(** C7. Sequence consumption: a call that reaches packet construction (the
    socket is open, the payload size is not negative and the buffer is
    sized) increments [_nextSequence] exactly once, whatever the operating
    system answers afterwards (the don't-fragment configuration, [sendto]
    would block, fails or sends part of the packet); no other member of the
    prober changes, so the identifier and the socket are as before. *)
Theorem sequence_consumed_once (host : endian) (os : platform)
    (self : PosixPing) (c : SendCall) :
  reachesConstruction self c = true ->
  let after := prober (call host os self c) in
  _nextSequence after = u16 (_nextSequence self + 1) /\
  _identifier after = _identifier self /\
  _icmpSocket after = _icmpSocket self.
Proof.
  intros H after. subst after. rewrite (call_prober host os self c H).
  repeat split.
Qed.

Lemma sequence_consumed_once_witness :
  let self := mkPosixPing 4660 65535 (Fd 3) in
  let failing := mkSendEnv 1700000000 123456 1 (-1) 11 in
  let c := mkSendCall 167772161 32 false failing in
  result (call LittleEndian Linux self c) = Returned false /\
  _nextSequence (prober (call LittleEndian Linux self c)) = 0.
Proof.
  intros self failing c. split; [reflexivity|].
  exact (proj1 (sequence_consumed_once LittleEndian Linux self c eq_refl)).
Defined.

(** C6. Sequence wrap-around: starting from any 16-bit sequence value,
    65536 calls that each reach packet construction (open socket, payload
    size not negative, buffer sized) bring [_nextSequence] back to its
    initial value, and the next such call increments it again (modulo
    65536). *)
Theorem sequence_wraps (host : endian) (os : platform) (self : PosixPing)
    (cs : list SendCall) :
  0 <= _nextSequence self < 2 ^ 16 ->
  forallb (reachesConstruction self) cs = true ->
  Z.of_nat (length cs) = 65536 ->
  let after := snd (sendAll host os self cs) in
  _nextSequence after = _nextSequence self /\
  forall c, reachesConstruction after c = true ->
    _nextSequence (prober (call host os after c)) =
      u16 (_nextSequence self + 1).
Proof.
  intros Hseq Hall Hlen after. subst after.
  rewrite (sendAll_prober host os cs self Hseq Hall), Hlen.
  cbn [_nextSequence].
  assert (E : u16 (_nextSequence self + 65536) = _nextSequence self).
  { unfold u16. change 65536 with (1 * 2 ^ 16).
    rewrite Z_mod_plus_full. apply Z.mod_small. exact Hseq. }
  rewrite E. split; [reflexivity|].
  intros c Hc. rewrite (call_prober host os _ c Hc). reflexivity.
Qed.

Lemma sequence_wraps_witness :
  let self := mkPosixPing 4660 41 (Fd 3) in
  let c := mkSendCall 167772161 32 true
                      (mkSendEnv 1700000000 123456 0 60 0) in
  let cs := repeat c (Z.to_nat 65536) in
  _nextSequence (snd (sendAll LittleEndian Linux self cs)) = 41.
Proof.
  intros self c cs.
  refine (proj1 (sequence_wraps LittleEndian Linux self cs _ _ _)).
  - cbn. lia.
  - vm_compute. reflexivity.
  - vm_compute. reflexivity.
Defined.


(** C8. Closed socket: when the raw socket is not open (its acquisition
    failed in the constructor), a call returns [false] at once: nothing is
    written, no system call is made, nothing is logged and [_nextSequence]
    is as before; and so for every call of every later sequence of calls. *)
Theorem closed_socket_never_sends (host : endian) (os : platform)
    (self : PosixPing) :
  isOpen (_icmpSocket self) = false ->
  (forall c, call host os self c = mkSendResult (Returned false) self [] []) /\
  (forall cs,
     snd (sendAll host os self cs) = self /\
     Forall (fun r => r = mkSendResult (Returned false) self [] [])
            (fst (sendAll host os self cs))).
Proof.
  intros H. split; [intros c; apply call_closed; exact H|].
  induction cs as [|c cs [IH1 IH2]].
  - split; [reflexivity | constructor].
  - cbn [sendAll]. rewrite (call_closed host os self c H). cbn [prober].
    destruct (sendAll host os self cs) as [rs final]. cbn [fst snd] in *.
    split; [exact IH1 | constructor; [reflexivity | exact IH2]].
Qed.

Lemma closed_socket_never_sends_witness :
  let self := PosixPing_new 4660 (-1) in
  let c := mkSendCall 167772161 32 true
                      (mkSendEnv 1700000000 123456 0 60 0) in
  snd (sendAll LittleEndian Linux self [c; c; c]) = self.
Proof.
  intros self c.
  exact (proj1 (proj2 (closed_socket_never_sends LittleEndian Linux self
                         eq_refl) [c; c; c])).
Defined.

(** C5. The datagram of an echo request.  For a call on an open socket, with
    a payload size within the limits of the operation ([0 <= payloadSize]
    and the datagram no longer than 65535 bytes) and with identifier,
    sequence number and address within their types, the buffer when the
    call ends holds: version 4, header-length nibble 5, total length
    [sizeof(struct ip) + sizeof(IcmpEcho) + payloadSize] (as the host stores
    a 16-bit member), TTL 255, protocol 1, identification and ICMP
    identifier equal to [_identifier], destination equal to [address], ICMP
    type 8 and code 0, sequence equal to the [_nextSequence] of before the
    call (all four in network byte order); the checksum member is what
    [calcChecksum] yields over the ICMP header and payload of this very
    buffer taken with the checksum member zero; and [sendto], when it is
    reached, is handed exactly this buffer and [address].  (For a payload
    smaller than the two timestamp members the stores that fall past the end
    of the buffer, see C10, are not part of it.) *)
Theorem echo_request_fields (host : endian) (os : platform)
    (self : PosixPing) (c : SendCall) :
  isOpen (_icmpSocket self) = true ->
  0 <= payloadSize c <= 65507 ->
  0 <= _identifier self < 2 ^ 16 ->
  0 <= _nextSequence self < 2 ^ 16 ->
  0 <= address c < 2 ^ 32 ->
  let r := call host os self c in
  let d := rawPacket r in
  let field w off := val (load host w off (mkState self d)) in
  let icmp := ip.sizeof in
  Z.of_nat (length d) = ip.sizeof + IcmpEcho.sizeof + payloadSize c /\
  (* IP header *)
  Z.shiftr (peek d ip.ip_vhl) 4 = 4 /\
  Z.land (peek d ip.ip_vhl) 15 = 5 /\
  field 2%nat ip.ip_len = ip.sizeof + IcmpEcho.sizeof + payloadSize c /\
  peek d ip.ip_ttl = 255 /\
  peek d ip.ip_p = 1 /\
  ntohs host (field 2%nat ip.ip_id) = _identifier self /\
  ntohl host (field 4%nat ip.ip_dst) = address c /\
  (* ICMP header *)
  peek d (icmp + IcmpEcho.type) = 8 /\
  peek d (icmp + IcmpEcho.code) = 0 /\
  ntohs host (field 2%nat (icmp + IcmpEcho.identifier)) = _identifier self /\
  ntohs host (field 2%nat (icmp + IcmpEcho.sequence)) = _nextSequence self /\
  (* the checksum is that of the ICMP header and payload as they are sent,
     taken with the checksum field zero *)
  field 2%nat (icmp + IcmpEcho.checksum) =
    val (calcChecksum host icmp (IcmpEcho.sizeof + payloadSize c)
           (st (store host 2 (icmp + IcmpEcho.checksum) 0 (mkState self d)))) /\
  (* what sendto is handed *)
  (forall dg, In dg (datagrams (events r)) -> dg = (d, address c)).
Proof.
  intros Hopen Hp Hid Hseq Haddr r d field icmp.
  assert (Hp' : 0 <= payloadSize c <= INT_MAX - 28) by (unfold INT_MAX; lia).
  subst field icmp d r.
  rewrite (call_run host os self c Hopen Hp'). cbn [rawPacket events].
  destruct (sendTail_spec host os (address c) (28 + payloadSize c)
              (allowFragment c) (env c)
              (mkState (incremented self)
                 (checksummedPacket host os self (address c) (payloadSize c)
                    (env c))))
    as (_ & Hbuf & _ & _ & _ & Hdg & _).
  cbn [buffer] in Hbuf.
  set (cp := checksummedPacket host os self (address c) (payloadSize c) (env c)) in *.
  set (d := buffer (st _)) in *.
  pose proof (length_checksummedPacket host os self (address c) (payloadSize c)
                (env c) (proj1 Hp)) as Hlen. fold cp in Hlen.
  assert (Hdlen : Z.of_nat (length d) = 28 + payloadSize c).
  { rewrite Hbuf. destruct (allowFragment c); rewrite ?length_pokeBytes; exact Hlen. }
  assert (Hd : forall o, o < 6 \/ 8 <= o -> peek d o = peek cp o).
  { intros o Ho. rewrite Hbuf. destruct (allowFragment c); [reflexivity|].
    apply peek_pokeBytes_outside. rewrite length_bytes_of. lia. }
  assert (Hcp : forall o, o < 22 \/ 24 <= o ->
            peek cp o = peek (builtPacket host os self (address c)
                                (payloadSize c) (env c)) o).
  { intros o Ho. unfold cp, checksummedPacket.
    apply peek_pokeBytes_outside. rewrite length_bytes_of. lia. }
  assert (Hh : forall o, (o < 6 \/ 8 <= o) -> (o < 22 \/ 24 <= o) -> o < 28 ->
            peek d o = peek (ipHeader host self (address c) (28 + payloadSize c)
                             ++ icmpHeader host self) o).
  { intros o H1 H2 H3. rewrite Hd, Hcp, peek_builtPacket by assumption.
    reflexivity. }
  destruct (header_fields host self (address c) (28 + payloadSize c))
    as (F0 & Flen & Fid & Fttl & Fp & Fdst & Ftype & Fcode & Fc0 & Fc1
        & Ficmpid & Fseq).
  unfold ip.ip_vhl, ip.ip_len, ip.ip_ttl, ip.ip_p, ip.ip_id, ip.ip_dst,
    ip.sizeof, IcmpEcho.sizeof, IcmpEcho.type, IcmpEcho.code,
    IcmpEcho.identifier, IcmpEcho.sequence, IcmpEcho.checksum.
  rewrite !load_spec. cbn [val buffer].
  change (20 + 0) with 20. change (20 + 1) with 21. change (20 + 4) with 24.
  change (20 + 6) with 26. change (20 + 2) with 22.
  rewrite !(Hh 0), !(Hh 8), !(Hh 9), !(Hh 20), !(Hh 21) by lia.
  rewrite F0, Fttl, Fp, Ftype, Fcode.
  rewrite (peekn_ext d _ 2 2 (fun o Ho => Hh o ltac:(lia) ltac:(lia) ltac:(lia))).
  rewrite (peekn_ext d _ 4 2 (fun o Ho => Hh o ltac:(lia) ltac:(lia) ltac:(lia))).
  rewrite (peekn_ext d _ 16 4 (fun o Ho => Hh o ltac:(lia) ltac:(lia) ltac:(lia))).
  rewrite (peekn_ext d _ 24 2 (fun o Ho => Hh o ltac:(lia) ltac:(lia) ltac:(lia))).
  rewrite (peekn_ext d _ 26 2 (fun o Ho => Hh o ltac:(lia) ltac:(lia) ltac:(lia))).
  rewrite Flen, Fid, Fdst, Ficmpid, Fseq.
  rewrite !int_of_bytes_of_2, int_of_bytes_of_4.
  rewrite (u16_small (28 + payloadSize c)) by lia.
  rewrite !(u16_small (htons host _)) by (apply htons_range; assumption).
  rewrite (u32_small (htonl host _)) by (apply htonl_range; assumption).
  rewrite !ntohs_htons, ntohl_htonl by assumption.
  split; [lia|]. do 11 (split; [reflexivity || lia|]).
  split.
  - (* checksum *)
    rewrite store_spec, calcChecksum_spec. cbn [val st buffer].
    rewrite (peekn_ext d cp 22 2) by (intros o Ho; apply Hd; lia).
    change (int_of host (peekn cp 22 2)) with (word host cp 22).
    unfold cp at 1, checksummedPacket.
    rewrite word_store.
    2: lia.
    2:{ unfold builtPacket. cbv zeta.
        rewrite !length_pokeBytes, length_fillBytes, !length_app,
          length_ipHeader, length_icmpHeader, repeat_length. lia. }
    unfold builtChecksum at 1. unfold checksumValue at 1.
    rewrite complement16_u16. fold (checksumValue host
      (builtPacket host os self (address c) (payloadSize c) (env c)) 20
      (8 + payloadSize c)).
    apply checksumValue_ext; [lia|].
    intros k Hk.
    assert (Hz : bytes_of host 2 0 = [0; 0]) by (destruct host; reflexivity).
    rewrite Hz, peek_pokeBytes_2 by lia.
    destruct (Z.eqb_spec (20 + k) 22) as [E|E].
    { rewrite E, peek_builtPacket, Fc0 by lia. reflexivity. }
    destruct (Z.eqb_spec (20 + k) (22 + 1)) as [E'|E'].
    { rewrite E', peek_builtPacket by lia. change (22 + 1) with 23.
      rewrite Fc1. reflexivity. }
    rewrite Hd, Hcp by lia. reflexivity.
  - intros dg Hin.
    rewrite datagrams_app, datagrams_buildTrace in Hin. cbn [app] in Hin.
    destruct Hdg as [E|E]; rewrite E in Hin; [contradiction|].
    destruct Hin as [<-|[]]. fold d. rewrite (datagram_whole d _ Hdlen).
    reflexivity.
Qed.

Lemma echo_request_fields_witness :
  let self := mkPosixPing 4660 65535 (Fd 3) in
  let c := mkSendCall 167772161 32 true
                      (mkSendEnv 1700000000 123456 0 60 0) in
  peek (rawPacket (call LittleEndian Linux self c)) ip.ip_ttl = 255.
Proof.
  intros self c.
  refine (proj1 (proj2 (proj2 (proj2 (proj2
            (echo_request_fields LittleEndian Linux self c _ _ _ _ _)))))).
  - reflexivity.
  - cbn. lia.
  - cbn. lia.
  - cbn. lia.
  - cbn. lia.
Defined.

(** C10. The timestamp and the buffer.  For a call on an open socket with a
    non-negative payload size that the [int] buffer size can hold: the two
    timestamp members take [2 * sizeof(TimestampField)] bytes (16 on Linux,
    8 on macOS) and are stored at offsets 28 .. 28 + that - 1 whatever the
    payload size; the buffer has [20 + 8 + payloadSize] bytes; when
    [payloadSize] is at least the size of the two timestamp members every
    store of the call lies within the buffer; when it is smaller a timestamp
    byte is stored past the end of the buffer. *)
Theorem timestamp_write_bounds (host : endian) (os : platform)
    (self : PosixPing) (c : SendCall) :
  isOpen (_icmpSocket self) = true ->
  0 <= payloadSize c <= INT_MAX - 28 ->
  let r := call host os self c in
  let size := 20 + 8 + payloadSize c in
  let ts := 2 * Z.of_nat (TimestampField os) in
  ts = match os with Linux => 16 | Mac => 8 end /\
  Z.of_nat (length (rawPacket r)) = size /\
  (forall k, 0 <= k < ts -> In (28 + k) (stores (events r))) /\
  (ts <= payloadSize c ->
   Forall (fun off => 0 <= off < size) (stores (events r))) /\
  (payloadSize c < ts ->
   exists k, 0 <= k < ts /\ size <= 28 + k /\ In (28 + k) (stores (events r))).
Proof.
  intros Hopen Hp r size ts. subst r size ts.
  rewrite (call_run host os self c Hopen Hp). cbn [rawPacket events].
  destruct (sendTail_spec host os (address c) (28 + payloadSize c)
              (allowFragment c) (env c)
              (mkState (incremented self)
                 (checksummedPacket host os self (address c) (payloadSize c)
                    (env c))))
    as (_ & Hbuf & Hst & _).
  cbn [buffer] in Hbuf.
  rewrite stores_app, stores_buildTrace, Hst, Hbuf.
  assert (Hts : forall k, 0 <= k < 2 * Z.of_nat (TimestampField os) ->
    In (28 + k)
      ((span 12 4 ++ [0; 0] ++ span 1 11 ++ span 16 4 ++ span 20 8
        ++ span 28 (Z.to_nat (payloadSize c))
        ++ (span 28 (TimestampField os)
            ++ span (28 + Z.of_nat (TimestampField os)) (TimestampField os))
        ++ span 22 2)
       ++ (if allowFragment c then [] else [6; 7]))).
  { intros k Hk. apply in_or_app. left.
    do 5 (apply in_or_app; right). apply in_or_app. right.
    apply in_or_app. left. apply timestamp_span. exact Hk. }
  split; [destruct os; reflexivity|]. split.
  { destruct (allowFragment c); rewrite ?length_pokeBytes;
      rewrite length_checksummedPacket by lia; lia. }
  split; [exact Hts|]. split.
  - intros Hfit. 
    assert (0 < Z.of_nat (TimestampField os) <= 8) by (destruct os; cbn; lia).
    repeat (apply Forall_app; split);
      try (apply Forall_span; intros x Hx; lia).
    + constructor; [lia | constructor; [lia | constructor]].
    + destruct (allowFragment c);
        [constructor | constructor; [lia | constructor; [lia | constructor]]].
  - intros Hshort. exists (2 * Z.of_nat (TimestampField os) - 1).
    assert (0 < Z.of_nat (TimestampField os)) by (destruct os; cbn; lia).
    split; [lia|]. split; [lia|]. apply Hts. lia.
Qed.

Lemma timestamp_write_bounds_witness :
  let self := mkPosixPing 4660 65535 (Fd 3) in
  let c := mkSendCall 167772161 4 true
                      (mkSendEnv 1700000000 123456 0 32 0) in
  exists k, 0 <= k < 2 * Z.of_nat (TimestampField Linux)
            /\ 20 + 8 + payloadSize c <= 28 + k
            /\ In (28 + k) (stores (events (call LittleEndian Linux self c))).
Proof.
  intros self c.
  refine (proj2 (proj2 (proj2 (proj2
            (timestamp_write_bounds LittleEndian Linux self c _ _)))) _).
  - reflexivity.
  - unfold INT_MAX. cbn. lia.
  - cbn. lia.
Defined.

(** * Further properties of the code *)

(** ** calcChecksum *)

Lemma checksumLoads_span (data len : Z) :
  0 <= len -> checksumLoads data len = span data (Z.to_nat len).
Proof.
  intros Hlen. unfold checksumLoads.
  assert (Hh : 0 <= len / 2) by (apply Z.div_pos; lia).
  pose proof (Z.div_mod len 2 ltac:(lia)) as Hdm.
  pose proof (Z.mod_pos_bound len 2 ltac:(lia)) as Hm.
  destruct (Z.eqb_spec (len mod 2) 0) as [E|E].
  - rewrite app_nil_r. f_equal. lia.
  - replace (Z.to_nat len) with (2 * Z.to_nat (len / 2) + 1)%nat by lia.
    rewrite span_app. cbn [span]. do 3 f_equal. lia.
Qed.

(** X1. [calcChecksum] is a pure reader: for a non-negative length it leaves
    the object and the buffer as they are, reads each of the bytes
    [data .. data + len - 1] exactly once, in increasing order, and nothing
    else, and its result is a 16-bit value. *)
Theorem calcChecksum_reads_each_byte_once (host : endian) (data len : Z)
    (s : State) :
  0 <= len ->
  let r := calcChecksum host data len s in
  st r = s /\
  tr r = map MemLoad (span data (Z.to_nat len)) /\
  0 <= val r < 2 ^ 16.
Proof.
  intros Hlen r. subst r. rewrite calcChecksum_spec. cbn [val st tr].
  rewrite checksumLoads_span by exact Hlen.
  repeat split; unfold checksumValue, complement16; apply u16_range.
Qed.

Lemma calcChecksum_reads_each_byte_once_witness :
  let s := mkState (mkPosixPing 4660 7 (Fd 3)) [1; 2; 3] in
  tr (calcChecksum LittleEndian 0 3 s) = [MemLoad 0; MemLoad 1; MemLoad 2].
Proof.
  intros s.
  refine (proj1 (proj2 (calcChecksum_reads_each_byte_once LittleEndian 0 3 s _))).
  lia.
Defined.

Lemma words16_snoc_zero (buf : list Z) :
  Z.of_nat (length buf) mod 2 = 1 ->
  sumZ (words16 LittleEndian (buf ++ [0])) =
    sumZ (words16 LittleEndian buf) + last buf 0.
Proof.
  induction buf as [|a|a b l IH] using pair_induction; intros Hodd.
  - discriminate Hodd.
  - cbn. lia.
  - assert (Hl : Z.of_nat (length l) mod 2 = 1).
    { cbn [length] in Hodd. rewrite !Nat2Z.inj_succ in Hodd.
      replace (Z.succ (Z.succ (Z.of_nat (length l))))
        with (Z.of_nat (length l) + 1 * 2) in Hodd by lia.
      rewrite Z_mod_plus_full in Hodd. exact Hodd. }
    assert (Hne : l <> []) by (intros ->; discriminate Hl).
    change ((a :: b :: l) ++ [0]) with (a :: b :: (l ++ [0])).
    cbn [words16 sumZ fold_right].
    fold (sumZ (words16 LittleEndian (l ++ [0]))).
    fold (sumZ (words16 LittleEndian l)).
    rewrite IH by exact Hl.
    replace (last (a :: b :: l) 0) with (last l 0); [lia|].
    destruct l as [|x l']; [congruence | reflexivity].
Qed.

(** X2. On a little-endian host the trailing odd byte is added as the
    low-order byte of a word whose other byte is zero: the checksum of an
    odd-length buffer is the checksum of the buffer padded with one zero
    byte. *)
Theorem odd_length_is_zero_padding (self : PosixPing) (buf : list Z) :
  let len := Z.of_nat (length buf) in
  len mod 2 = 1 ->
  val (calcChecksum LittleEndian 0 (len + 1) (mkState self (buf ++ [0]))) =
  val (calcChecksum LittleEndian 0 len (mkState self buf)).
Proof.
  intros len Hodd. rewrite !calcChecksum_spec. cbn [val buffer].
  unfold checksumValue, trailing.
  assert (Heven : (len + 1) mod 2 = 0).
  { clear - Hodd. Z.div_mod_to_equations. lia. }
  rewrite Heven, Hodd. cbn [Z.eqb].
  assert (Hne : buf <> []) by (intros E; subst buf; discriminate Hodd).
  replace (len + 1) with (Z.of_nat (length (buf ++ [0])))
    by (rewrite length_app; cbn [length]; subst len; lia).
  rewrite !wordSum_words16.
  rewrite words16_snoc_zero by exact Hodd.
  unfold len. cbn [Z.add]. rewrite peek_last by exact Hne.
  rewrite Z.add_0_r. reflexivity.
Qed.

Lemma odd_length_is_zero_padding_witness :
  let self := mkPosixPing 4660 7 (Fd 3) in
  val (calcChecksum LittleEndian 0 4 (mkState self [1; 2; 3; 0])) =
  val (calcChecksum LittleEndian 0 3 (mkState self [1; 2; 3])).
Proof.
  intros self.
  refine (odd_length_is_zero_padding self [1; 2; 3] _).
  reflexivity.
Defined.

Lemma peek_isByte (m : list Z) (off : Z) :
  Forall isByte m -> isByte (peek m off).
Proof.
  intros Hm. unfold peek. destruct (off <? 0); [unfold isByte; lia|].
  destruct (nth_in_or_default (Z.to_nat off) m 0) as [Hin | ->].
  - rewrite Forall_forall in Hm. apply Hm. exact Hin.
  - unfold isByte. lia.
Qed.

(** The sum of the words on the two hosts, from the sums of the bytes at
    even and at odd positions. *)
Lemma wordSum_bytes (m : list Z) (n : nat) :
  Forall isByte m ->
  forall off, exists B0 B1,
    0 <= B0 <= 255 * Z.of_nat n /\ 0 <= B1 <= 255 * Z.of_nat n /\
    wordSum LittleEndian m off n = B0 + 256 * B1 /\
    wordSum BigEndian m off n = B1 + 256 * B0.
Proof.
  intros Hm. induction n as [|n IH]; intros off.
  - exists 0, 0. cbn. lia.
  - destruct (IH (off + 2)) as (B0 & B1 & H0 & H1 & El & Eb).
    pose proof (peek_isByte m off Hm) as Ha.
    pose proof (peek_isByte m (off + 1) Hm) as Hb.
    unfold isByte in Ha, Hb.
    exists (peek m off + B0), (peek m (off + 1) + B1).
    cbn [wordSum]. rewrite El, Eb. unfold word. cbn [int_of rev app int_le].
    lia.
Qed.

Lemma fold_twice_char (x : Z) :
  0 <= x < 2 ^ 32 ->
  let r := foldCarry (foldCarry x) in
  0 <= r <= 65535 /\ (exists k, x = r + 65535 * k) /\ (r = 0 <-> x = 0).
Proof.
  intros Hx r. subst r.
  destruct (split16 x Hx) as (hi & lo & -> & Hhi & Hlo).
  rewrite fold_twice by assumption.
  change (2 ^ 16) with 65536 in *.
  destruct (hi + lo <? 65536) eqn:E;
    [apply Z.ltb_lt in E | apply Z.ltb_ge in E].
  - split; [lia|]. split; [exists hi; lia | lia].
  - split; [lia|]. split; [exists (hi + 1); lia | lia].
Qed.

Lemma bswap16_complement (a b : Z) :
  0 <= a < 256 -> 0 <= b < 256 ->
  bswap16 (65535 - (a + 256 * b)) = 65535 - (b + 256 * a).
Proof.
  intros Ha Hb. rewrite bswap16_eq.
  replace (65535 - (a + 256 * b)) with ((255 - a) + 256 * (255 - b)) by lia.
  rewrite byte_cons_mod, byte_cons_div by lia.
  rewrite Z.mod_small by lia. lia.
Qed.

(** The checksum of the byte-swapped sum is the byte-swapped checksum. *)
Lemma checksum_swapped (B0 B1 : Z) :
  0 <= B0 -> 0 <= B1 ->
  B0 + 256 * B1 < 2 ^ 32 -> B1 + 256 * B0 < 2 ^ 32 ->
  complement16 (foldCarry (foldCarry (B1 + 256 * B0))) =
    bswap16 (complement16 (foldCarry (foldCarry (B0 + 256 * B1)))).
Proof.
  intros H0 H1 Hx Hy.
  destruct (fold_twice_char (B0 + 256 * B1) ltac:(lia)) as (Rx & [kx Ex] & Zx).
  destruct (fold_twice_char (B1 + 256 * B0) ltac:(lia)) as (Ry & [ky Ey] & Zy).
  set (rx := foldCarry (foldCarry (B0 + 256 * B1))) in *.
  set (ry := foldCarry (foldCarry (B1 + 256 * B0))) in *.
  rewrite !complement16_eq by (change (2 ^ 16) with 65536; lia).
  pose proof (Z.div_mod rx 256 ltac:(lia)) as Dx.
  pose proof (Z.mod_pos_bound rx 256 ltac:(lia)) as Mx.
  assert (Qx : 0 <= rx / 256 < 256).
  { split; [apply Z.div_pos; lia | apply Z.div_lt_upper_bound; lia]. }
  set (a := rx mod 256) in *. set (b := rx / 256) in *.
  replace rx with (a + 256 * b) in * by lia.
  rewrite bswap16_complement by lia.
  f_equal.
  assert (Hcong : exists m, ry - (b + 256 * a) = 65535 * m).
  { exists (256 * kx - B1 - ky + b). lia. }
  destruct Hcong as [m Hm].
  assert (Hm3 : m = -1 \/ m = 0 \/ m = 1) by lia.
  destruct Hm3 as [-> | [-> | ->]]; lia.
Qed.

(** X3. Byte-order independence of the checksum.  Over an even number of
    bytes, at most [2 ^ 17] of them (so that the 32-bit accumulator cannot
    wrap), the value [calcChecksum] returns on a big-endian host is the
    byte-swapped value it returns on a little-endian host: stored as a
    16-bit member (line 158 stores it without [htons]) it gives the same
    two bytes on the wire on both hosts. *)
Theorem checksum_byte_order_independent (data len : Z) (s : State) :
  0 <= len <= 2 ^ 17 -> len mod 2 = 0 ->
  Forall isByte (buffer s) ->
  let sum host := val (calcChecksum host data len s) in
  sum BigEndian = bswap16 (sum LittleEndian) /\
  bytes_of BigEndian 2 (sum BigEndian) =
    bytes_of LittleEndian 2 (sum LittleEndian).
Proof.
  intros Hlen Heven Hm sum. subst sum. cbv beta.
  rewrite !calcChecksum_spec. cbn [val].
  unfold checksumValue, trailing. rewrite Heven. cbn [Z.eqb].
  rewrite !Z.add_0_r.
  destruct (wordSum_bytes (buffer s) (Z.to_nat (len / 2)) Hm data)
    as (B0 & B1 & H0 & H1 & -> & ->).
  assert (Hn : Z.of_nat (Z.to_nat (len / 2)) <= 65536).
  { rewrite Z2Nat.id by (apply Z.div_pos; lia).
    apply Z.div_le_upper_bound; lia. }
  rewrite !u32_small by lia.
  assert (E : complement16 (foldCarry (foldCarry (B1 + 256 * B0))) =
              bswap16 (complement16 (foldCarry (foldCarry (B0 + 256 * B1)))))
    by (apply checksum_swapped; lia).
  split; [exact E|].
  rewrite E.
  set (v := complement16 (foldCarry (foldCarry (B0 + 256 * B1)))).
  assert (Hv : 0 <= v < 2 ^ 16) by (apply u16_range).
  cbn [bytes_of bytes_le rev app]. unfold u8.
  rewrite !Z.shiftr_div_pow2 by lia. change (2 ^ 8) with 256.
  rewrite bswap16_eq.
  divmod256 v. divmod256 (v / 256).
  assert (Q : v / 256 < 256) by (apply Z.div_lt_upper_bound; lia).
  rewrite (Z.mod_small (v / 256)) by lia.
  set (a := v mod 256) in *. set (b := v / 256) in *.
  replace (a * 256 + b) with (b + 256 * a) by lia.
  rewrite byte_cons_mod, byte_cons_div by lia.
  rewrite (Z.mod_small a) by lia. reflexivity.
Qed.

Lemma checksum_byte_order_independent_witness :
  let s := mkState (mkPosixPing 4660 7 (Fd 3)) [8; 0; 0; 0; 18; 52; 0; 7] in
  val (calcChecksum BigEndian 0 8 s) =
    bswap16 (val (calcChecksum LittleEndian 0 8 s)).
Proof.
  intros s.
  refine (proj1 (checksum_byte_order_independent 0 8 s _ _ _)).
  - lia.
  - reflexivity.
  - repeat constructor; unfold isByte; lia.
Defined.

(** ** onReadyRead *)

Lemma readOnly_ret {A} (a : A) : readOnly (ret a).
Proof. intros s. split; reflexivity. Qed.

Lemma readOnly_emit_warn (w : warning) : readOnly (emit (Warn w)).
Proof. intros s. split; reflexivity. Qed.

Lemma readOnly_emit_reply (a : Z) : readOnly (emit (ReceivedReply a)).
Proof. intros s. split; reflexivity. Qed.

Lemma readOnly_member {A} (f : PosixPing -> A) : readOnly (member f).
Proof. intros s. split; reflexivity. Qed.

Lemma readOnly_load8 (off : Z) : readOnly (load8 off).
Proof. intros s. split; reflexivity. Qed.

Lemma readOnly_load (host : endian) (w : nat) (off : Z) : readOnly (load host w off).
Proof. intros s. rewrite load_spec. cbn. split; [reflexivity | apply stores_MemLoad]. Qed.

Lemma readOnly_calcChecksum (host : endian) (data len : Z) :
  readOnly (calcChecksum host data len).
Proof.
  intros s. rewrite calcChecksum_spec. cbn. split; [reflexivity | apply stores_MemLoad].
Qed.

Lemma readOnly_bind {A B} (c : M A) (f : A -> M B) :
  readOnly c -> (forall a, readOnly (f a)) -> readOnly (bind c f).
Proof.
  intros Hc Hf s. unfold bind. cbn [st tr].
  destruct (Hc s) as [E1 E2]. rewrite E1.
  destruct (Hf (val (c s)) s) as [E3 E4].
  rewrite stores_app, E2, E4. split; [exact E3 | reflexivity].
Qed.

Lemma readOnly_if {A} (b : bool) (c1 c2 : M A) :
  readOnly c1 -> readOnly c2 -> readOnly (if b then c1 else c2).
Proof. intros H1 H2. destruct b; assumption. Qed.

Ltac read_only :=
  repeat match goal with
  | |- readOnly (bind _ _) => apply readOnly_bind; [|intros ?]
  | |- readOnly (if _ then _ else _) => apply readOnly_if
  | |- readOnly (ret _) => apply readOnly_ret
  | |- readOnly (emit (Warn _)) => apply readOnly_emit_warn
  | |- readOnly (emit (ReceivedReply _)) => apply readOnly_emit_reply
  | |- readOnly (member _) => apply readOnly_member
  | |- readOnly (load8 _) => apply readOnly_load8
  | |- readOnly (load _ _ _) => apply readOnly_load
  | |- readOnly (calcChecksum _ _ _) => apply readOnly_calcChecksum
  end.

(** X4. [onReadyRead] never writes: whatever [recv] answered and whatever
    the array holds, the prober (identifier, sequence number, socket) and
    the array are after the call as before it, and no byte is stored. *)
Theorem onReadyRead_read_only (host : endian) (read errno : Z) (s : State) :
  let r := onReadyRead host read errno s in
  st r = s /\ stores (tr r) = [].
Proof.
  cbv zeta.
  enough (H : readOnly (onReadyRead host read errno)) by apply H.
  unfold onReadyRead. cbv zeta. read_only.
Qed.

(** X5. The warning of a wake-up is decided by the first check that fails,
    in the order of the code: [recv] failed; fewer than 20 bytes; version
    not 4; header length below 20, beyond the bytes read, or leaving fewer
    than 8 bytes; protocol not 1; checksum validation nonzero.  A datagram
    that passes them all logs nothing. *)
Theorem warning_by_first_failed_check (host : endian) (self : PosixPing)
    (packet : list Z) (read errno : Z) :
  read <= 2048 ->
  let hb := headerLength packet in
  warnings (receive host self packet read errno) =
    if read <? 0 then [RecvFailed read errno]
    else if read <? 20 then [IncompletePacket read]
    else if negb (ipVersion packet =? 4)
    then [InvalidVersion (ipVersion packet)]
    else if (hb <? 20) || (read <? hb) || (read - hb <? 8)
    then [InvalidHeaderLength hb read]
    else if negb (ipProtocol packet =? 1)
    then [NonIcmpPacket (ipProtocol packet)]
    else if icmpChecksumResult host self packet read =? 0 then []
    else [CorruptIcmpPacket (ipSource host packet)].
Proof.
  intros Hread hb. subst hb. rewrite receive_unfold by exact Hread. cbv zeta.
  destruct (read <? 0); [reflexivity|].
  destruct (read <? 20); [reflexivity|].
  destruct (negb (ipVersion packet =? 4)); [reflexivity|].
  destruct ((headerLength packet <? 20) || (read <? headerLength packet)
            || (read - headerLength packet <? 8)); [reflexivity|].
  destruct (negb (ipProtocol packet =? 1)); [reflexivity|].
  rewrite warnings_app, warnings_inspected. reflexivity.
Qed.

Lemma warning_by_first_failed_check_witness :
  let self := mkPosixPing 4660 7 (Fd 3) in
  let packet := [69; 0; 0; 0; 0; 0; 0; 0; 64; 1; 0; 0; 10; 0; 0; 1;
                 192; 168; 0; 2; 0; 0; 237; 203; 18; 52; 0; 0] in
  warnings (receive LittleEndian self packet 27 0) = [InvalidHeaderLength 20 27].
Proof.
  intros self packet.
  refine (warning_by_first_failed_check LittleEndian self packet 27 0 _).
  lia.
Defined.

(** X6. A datagram that passes the length and version checks but whose
    protocol byte is not 1 is rejected before anything of the ICMP header is
    looked at: no [receivedReply], the non-ICMP warning with the protocol
    byte, and the only bytes read are the version / header-length byte and
    the protocol byte. *)
Theorem non_icmp_rejected (host : endian) (self : PosixPing)
    (packet : list Z) (read errno : Z) :
  read <= 2048 -> 20 <= read -> ipVersion packet = 4 ->
  20 <= headerLength packet <= read ->
  IcmpEcho.sizeof <= read - headerLength packet ->
  ipProtocol packet <> 1 ->
  let t := receive host self packet read errno in
  replies t = [] /\
  warnings t = [NonIcmpPacket (ipProtocol packet)] /\
  loads t = [Ipv4.version_ihl; Ipv4.version_ihl; Ipv4.protocol; Ipv4.protocol].
Proof.
  intros Hread H20 Hv Hhl Hicmp Hp t. subst t.
  rewrite receive_unfold by exact Hread. cbv zeta.
  unfold IcmpEcho.sizeof in Hicmp.
  replace (read <? 0) with false by (symmetry; apply Z.ltb_ge; lia).
  replace (read <? 20) with false by (symmetry; apply Z.ltb_ge; lia).
  rewrite Hv. cbn [Z.eqb Pos.eqb negb].
  replace (headerLength packet <? 20) with false
    by (symmetry; apply Z.ltb_ge; lia).
  replace (read <? headerLength packet) with false
    by (symmetry; apply Z.ltb_ge; lia).
  replace (read - headerLength packet <? 8) with false
    by (symmetry; apply Z.ltb_ge; lia).
  cbn [orb]. apply Z.eqb_neq in Hp. rewrite Hp. cbn [negb].
  repeat split.
Qed.

Lemma non_icmp_rejected_witness :
  let self := mkPosixPing 4660 7 (Fd 3) in
  let packet := [69; 0; 0; 0; 0; 0; 0; 0; 64; 17; 0; 0; 10; 0; 0; 1;
                 192; 168; 0; 2; 0; 0; 237; 203; 18; 52; 0; 0] in
  warnings (receive LittleEndian self packet 28 0) = [NonIcmpPacket 17].
Proof.
  intros self packet.
  refine (proj1 (proj2
            (non_icmp_rejected LittleEndian self packet 28 0 _ _ _ _ _ _))).
  - lia.
  - lia.
  - reflexivity.
  - by_evaluation.
  - by_evaluation.
  - by_evaluation.
Defined.

(** X7. A well-formed echo reply for this prober is accepted silently: when
    the datagram passes the length / version / protocol checks, its checksum
    validation is zero, its type and code are 0 and its identifier is the
    prober's, the call emits [receivedReply] once, with the source address
    of the IP header in host byte order, and logs nothing. *)
Theorem valid_reply_accepted (host : endian) (self : PosixPing)
    (packet : list Z) (read errno : Z) :
  read <= 2048 -> passesChecks packet read ->
  icmpChecksumResult host self packet read = 0 ->
  icmpType packet = 0 -> icmpCode packet = 0 ->
  icmpIdentifier host packet = _identifier self ->
  let t := receive host self packet read errno in
  warnings t = [] /\ replies t = [ipSource host packet].
Proof.
  intros Hread Hpass Hsum Ht Hc Hi t. subst t.
  rewrite receive_passing by assumption.
  rewrite warnings_app, replies_app, warnings_inspected, replies_inspected.
  rewrite Hsum, Ht, Hc, Hi, !Z.eqb_refl. split; reflexivity.
Qed.

Lemma valid_reply_accepted_witness :
  let self := mkPosixPing 4660 7 (Fd 3) in
  let packet := [69; 0; 0; 0; 0; 0; 0; 0; 64; 1; 0; 0; 10; 0; 0; 1;
                 192; 168; 0; 2; 0; 0; 237; 203; 18; 52; 0; 0] in
  let t := receive LittleEndian self packet 28 0 in
  warnings t = [] /\ replies t = [167772161].
Proof.
  intros self packet.
  refine (valid_reply_accepted LittleEndian self packet 28 0 _ _ _ _ _ _).
  - lia.
  - by_evaluation.
  - reflexivity.
  - reflexivity.
  - reflexivity.
  - reflexivity.
Defined.

(** X8. One wake-up emits at most one [receivedReply] and logs at most one
    warning; and a [receivedReply] is emitted only for a datagram that
    passed the length / version / protocol checks, with type 0, code 0 and
    the prober's identifier, and it carries the source address of that
    datagram. *)
Theorem reply_only_if_ours (host : endian) (self : PosixPing)
    (packet : list Z) (read errno : Z) :
  read <= 2048 ->
  let t := receive host self packet read errno in
  (length (replies t) <= 1)%nat /\
  (length (warnings t) <= 1)%nat /\
  (forall a, In a (replies t) ->
     a = ipSource host packet /\ passesChecks packet read /\
     icmpType packet = 0 /\ icmpCode packet = 0 /\
     icmpIdentifier host packet = _identifier self).
Proof.
  intros Hread t. subst t. rewrite receive_unfold by exact Hread. cbv zeta.
  destruct (Z.ltb_spec read 0) as [Hneg|Hpos].
  { cbn. repeat split; try lia; contradiction. }
  destruct (Z.ltb_spec read 20) as [Hshort|H20].
  { cbn. repeat split; try lia; contradiction. }
  destruct (Z.eqb_spec (ipVersion packet) 4) as [Hv|Hv]; cbn [negb].
  2:{ cbn. repeat split; try lia; contradiction. }
  destruct ((headerLength packet <? 20) || (read <? headerLength packet)
            || (read - headerLength packet <? 8)) eqn:Ehd.
  { cbn. repeat split; try lia; contradiction. }
  apply orb_false_elim in Ehd. destruct Ehd as [Ehd E3].
  apply orb_false_elim in Ehd. destruct Ehd as [E1 E2].
  apply Z.ltb_ge in E1, E2, E3.
  destruct (Z.eqb_spec (ipProtocol packet) 1) as [Hp|Hp]; cbn [negb].
  2:{ cbn. repeat split; try lia; contradiction. }
  assert (Hpass : passesChecks packet read).
  { unfold passesChecks, IcmpEcho.sizeof. lia. }
  rewrite replies_app, warnings_app, replies_inspected, warnings_inspected.
  cbn [replies warnings flat_map app].
  destruct (icmpChecksumResult host self packet read =? 0);
  destruct (Z.eqb_spec (icmpType packet) 0) as [Ht|Ht];
  destruct (Z.eqb_spec (icmpCode packet) 0) as [Hc|Hc];
  destruct (Z.eqb_spec (icmpIdentifier host packet) (_identifier self)) as [Hi|Hi];
  cbn [andb length]; (split; [lia|]); (split; [lia|]);
  intros a Ha; cbn in Ha; try contradiction;
  destruct Ha as [<-|[]]; repeat split; assumption.
Qed.

Lemma reply_only_if_ours_witness :
  let self := mkPosixPing 4660 7 (Fd 3) in
  let packet := [69; 0; 0; 0; 0; 0; 0; 0; 64; 1; 0; 0; 10; 0; 0; 1;
                 192; 168; 0; 2; 0; 0; 237; 203; 18; 52; 0; 0] in
  (length (replies (receive LittleEndian self packet 28 0)) <= 1)%nat.
Proof.
  intros self packet.
  refine (proj1 (reply_only_if_ours LittleEndian self packet 28 0 _)).
  lia.
Defined.

(** ** sendEchoRequest *)

Lemma warnings_MemStore (l : list Z) : warnings (map MemStore l) = [].
Proof. induction l; cbn; [reflexivity | assumption]. Qed.

Lemma warnings_buildTrace (os : platform) (p : Z) :
  warnings (buildTrace os p) = [].
Proof.
  unfold buildTrace, ipHeaderTrace, icmpHeaderTrace. cbv zeta.
  rewrite !warnings_app, !warnings_MemStore, warnings_MemLoad. reflexivity.
Qed.

Lemma loads_MemStore (l : list Z) : loads (map MemStore l) = [].
Proof. induction l; cbn; [reflexivity | assumption]. Qed.

Lemma loads_buildTrace (os : platform) (p : Z) :
  loads (buildTrace os p) = [0; 0] ++ checksumLoads 20 (8 + p).
Proof.
  unfold buildTrace, ipHeaderTrace, icmpHeaderTrace. cbv zeta.
  rewrite !loads_app, !loads_MemStore, loads_MemLoad. cbn [loads flat_map app].
  rewrite app_nil_r. reflexivity.
Qed.

(** How lines 160-202 end, what they log and what they send. *)
Lemma sendTail_outcome (host : endian) (os : platform) (address N : Z)
    (allowFragment : bool) (env : SendEnv) (s : State) :
  let r := sendTail host os address N allowFragment env s in
  let dfOk := allowFragment
              || match os with Mac => true | Linux => setsockopt_err env =? 0 end in
  val r = Returned (dfOk && negb (sent env <? 0) && (sent env =? N)) /\
  warnings (tr r) =
    (if negb dfOk then [SetDfFailed]
     else if sent env <? 0 then
       (if errno env =? EWOULDBLOCK os then [WouldHaveBlocked address]
        else [SendFailed address (errno env)])
     else if negb (sent env =? N) then [PartialSend (sent env) N address]
     else []) /\
  datagrams (tr r) =
    (if dfOk then [(firstn (Z.to_nat N) (buffer (st r)), address)] else []).
Proof.
  cbv zeta. unfold sendTail, setDontFragment, transmit.
  destruct allowFragment, (setsockopt_err env =? 0), (sent env <? 0),
    (errno env =? EWOULDBLOCK os), (sent env =? N), os;
    cbn [negb andb orb]; unfold bind, emit, ret; rewrite ?store_spec;
    cbn [negb andb orb val st tr this buffer]; trace_simpl;
    rewrite ?warnings_MemStore, ?datagrams_app, ?datagrams_MemStore;
    repeat split.
Qed.

Lemma rawPacket_eq (host : endian) (os : platform) (self : PosixPing)
    (c : SendCall) :
  isOpen (_icmpSocket self) = true ->
  0 <= payloadSize c <= INT_MAX - 28 ->
  rawPacket (call host os self c) =
    let cp := checksummedPacket host os self (address c) (payloadSize c)
                                (env c) in
    if allowFragment c then cp
    else pokeBytes cp 6 (bytes_of host 2 (dontFragmentFlag host os)).
Proof.
  intros Hopen Hp. rewrite (call_run host os self c Hopen Hp).
  cbn [rawPacket]. apply sendTail_spec.
Qed.

Lemma length_rawPacket (host : endian) (os : platform) (self : PosixPing)
    (c : SendCall) :
  isOpen (_icmpSocket self) = true ->
  0 <= payloadSize c <= INT_MAX - 28 ->
  Z.of_nat (length (rawPacket (call host os self c))) = 28 + payloadSize c.
Proof.
  intros Hopen Hp. rewrite rawPacket_eq by assumption. cbv zeta.
  destruct (allowFragment c); rewrite ?length_pokeBytes;
    apply length_checksummedPacket; lia.
Qed.

(** Outside the [ip_off] and checksum members the buffer is as
    [buildPacket] left it. *)
Lemma rawPacket_peek (host : endian) (os : platform) (self : PosixPing)
    (c : SendCall) (o : Z) :
  isOpen (_icmpSocket self) = true ->
  0 <= payloadSize c <= INT_MAX - 28 ->
  o < 6 \/ 8 <= o -> o < 22 \/ 24 <= o ->
  peek (rawPacket (call host os self c)) o =
    peek (builtPacket host os self (address c) (payloadSize c) (env c)) o.
Proof.
  intros Hopen Hp H1 H2. rewrite rawPacket_eq by assumption. cbv zeta.
  assert (E : peek (checksummedPacket host os self (address c) (payloadSize c)
                      (env c)) o =
              peek (builtPacket host os self (address c) (payloadSize c)
                      (env c)) o).
  { unfold checksummedPacket. apply peek_pokeBytes_outside.
    rewrite length_bytes_of. lia. }
  destruct (allowFragment c); [exact E|].
  rewrite peek_pokeBytes_outside by (rewrite length_bytes_of; lia). exact E.
Qed.

Lemma rawPacket_header (host : endian) (os : platform) (self : PosixPing)
    (c : SendCall) (o : Z) :
  isOpen (_icmpSocket self) = true ->
  0 <= payloadSize c <= INT_MAX - 28 ->
  o < 6 \/ 8 <= o -> o < 22 \/ 24 <= o -> o < 28 ->
  peek (rawPacket (call host os self c)) o =
    peek (ipHeader host self (address c) (28 + payloadSize c)
          ++ icmpHeader host self) o.
Proof.
  intros Hopen Hp H1 H2 H3.
  rewrite rawPacket_peek, peek_builtPacket by assumption. reflexivity.
Qed.

Lemma length_builtPacket (host : endian) (os : platform) (self : PosixPing)
    (address p : Z) (env : SendEnv) :
  0 <= p ->
  Z.of_nat (length (builtPacket host os self address p env)) = 28 + p.
Proof.
  intros Hp. unfold builtPacket. cbv zeta.
  rewrite !length_pokeBytes, length_fillBytes, !length_app, length_ipHeader,
    length_icmpHeader, repeat_length. lia.
Qed.

(** The round trip of C2 for any length, odd ones included, with the
    checksum member at any complete word of the range. *)
Lemma checksumValue_roundtrip (host : endian) (m : list Z) (data len : Z)
    (k : nat) :
  0 <= data -> data + len <= Z.of_nat (length m) ->
  let field := data + 2 * Z.of_nat k in
  field + 2 <= data + len ->
  word host m field = 0 ->
  checksumValue host
    (pokeBytes m field (bytes_of host 2 (checksumValue host m data len)))
    data len = 0.
Proof.
  intros Hdata Hfit field Hfield Hzero.
  assert (Hlen : 0 <= len) by (subst field; lia).
  set (sum := checksumValue host m data len).
  assert (Hsame : forall o, o <> field -> o <> field + 1 ->
            peek (pokeBytes m field (bytes_of host 2 sum)) o = peek m o).
  { intros o H1 H2. apply peek_pokeBytes_outside.
    rewrite length_bytes_of. lia. }
  assert (Hk : (k < Z.to_nat (len / 2))%nat).
  { apply Nat2Z.inj_lt. rewrite Z2Nat.id by (apply Z.div_pos; lia).
    subst field. clear - Hfield. Z.div_mod_to_equations. lia. }
  unfold checksumValue at 1.
  rewrite (wordSum_update host m _ data _ k Hk Hsame).
  fold field. rewrite Hzero, word_store by (subst field; lia).
  assert (Htr : trailing (pokeBytes m field (bytes_of host 2 sum)) data len
                = trailing m data len).
  { unfold trailing. destruct (Z.eqb_spec (len mod 2) 0) as [E|E]; [reflexivity|].
    apply Hsame; subst field; clear - Hfield E; Z.div_mod_to_equations; lia. }
  rewrite Htr. unfold sum at 1. unfold checksumValue at 1.
  rewrite complement16_u16, Z.sub_0_r.
  replace (wordSum host m data (Z.to_nat (len / 2))
           + complement16 (foldCarry (foldCarry (u32
               (wordSum host m data (Z.to_nat (len / 2)) + trailing m data len))))
           + trailing m data len)
    with (wordSum host m data (Z.to_nat (len / 2)) + trailing m data len
          + complement16 (foldCarry (foldCarry (u32
               (wordSum host m data (Z.to_nat (len / 2)) + trailing m data len)))))
    by lia.
  apply checksum_cancel.
Qed.

(** The ICMP message of the buffer validates. *)
Lemma rawPacket_checksum (host : endian) (os : platform) (self : PosixPing)
    (c : SendCall) :
  isOpen (_icmpSocket self) = true ->
  0 <= payloadSize c <= INT_MAX - 28 ->
  checksumValue host (rawPacket (call host os self c)) 20
                (8 + payloadSize c) = 0.
Proof.
  intros Hopen Hp.
  set (built := builtPacket host os self (address c) (payloadSize c) (env c)).
  pose proof (length_builtPacket host os self (address c) (payloadSize c)
                (env c) (proj1 Hp)) as Hlen. fold built in Hlen.
  destruct (header_fields host self (address c) (28 + payloadSize c))
    as (_ & _ & _ & _ & _ & _ & _ & _ & Fc0 & Fc1 & _).
  rewrite <- (checksumValue_roundtrip host built 20 (8 + payloadSize c) 1).
  - apply checksumValue_ext; [lia|]. intros k Hk.
    rewrite rawPacket_eq by assumption. cbv zeta. fold built.
    unfold checksummedPacket, builtChecksum. fold built.
    destruct (allowFragment c); [reflexivity|].
    apply peek_pokeBytes_outside. rewrite length_bytes_of. lia.
  - lia.
  - lia.
  - cbv zeta. lia.
  - unfold word. change (20 + 2 * Z.of_nat 1) with 22.
    unfold built. rewrite !peek_builtPacket by lia.
    change (22 + 1) with 23. rewrite Fc0, Fc1. destruct host; reflexivity.
Qed.

Lemma rawPacket_passesChecks (host : endian) (os : platform)
    (self : PosixPing) (c : SendCall) :
  isOpen (_icmpSocket self) = true ->
  0 <= payloadSize c <= INT_MAX - 28 ->
  let d := rawPacket (call host os self c) in
  headerLength d = 20 /\ passesChecks d (28 + payloadSize c) /\
  icmpType d = 8.
Proof.
  intros Hopen Hp d.
  destruct (header_fields host self (address c) (28 + payloadSize c))
    as (F0 & _ & _ & _ & Fp & _ & Ftype & _).
  assert (E0 : peek d 0 = 69).
  { subst d. rewrite rawPacket_header by (assumption || lia). exact F0. }
  assert (E9 : peek d 9 = 1).
  { subst d. rewrite rawPacket_header by (assumption || lia). exact Fp. }
  assert (E20 : peek d 20 = 8).
  { subst d. rewrite rawPacket_header by (assumption || lia). exact Ftype. }
  assert (Hhl : headerLength d = 20).
  { unfold headerLength, Ipv4.version_ihl. rewrite E0. reflexivity. }
  split; [exact Hhl|]. split.
  - unfold passesChecks, ipVersion, ipProtocol, Ipv4.version_ihl,
      Ipv4.protocol, IcmpEcho.sizeof.
    rewrite Hhl, E0, E9. cbn [Z.shiftr Z.shiftl Z.opp Pos.iter Z.div2 Pos.div2].
    repeat split; lia.
  - unfold icmpType. rewrite Hhl. exact E20.
Qed.

Lemma rawPacketSizeOf_negative (p : Z) :
  - 2 ^ 31 <= p <= INT_MAX ->
  (rawPacketSizeOf p < 0 <-> p < -28 \/ INT_MAX - 28 < p).
Proof.
  unfold INT_MAX, rawPacketSizeOf, to_int, u64, IcmpEcho.sizeof, ip.sizeof.
  intros Hp.
  destruct (Z.ltb_spec (28 + p) 0) as [Hneg|Hpos].
  - replace (8 + p + 20) with (28 + p + 2 ^ 64 + -1 * 2 ^ 64) by lia.
    rewrite Z_mod_plus_full, (Z.mod_small (28 + p + 2 ^ 64)) by lia.
    replace (28 + p + 2 ^ 64 + 2 ^ 31)
      with (28 + p + 2 ^ 31 + 2 ^ 32 * 2 ^ 32) by lia.
    rewrite Z_mod_plus_full, Z.mod_small by lia. lia.
  - rewrite (Z.mod_small (8 + p + 20)) by lia.
    destruct (Z.ltb_spec (28 + p) (2 ^ 31)) as [Hfit|Hover].
    + rewrite Z.mod_small by lia. lia.
    + replace (8 + p + 20 + 2 ^ 31) with (28 + p - 2 ^ 31 + 1 * 2 ^ 32) by lia.
      rewrite Z_mod_plus_full, Z.mod_small by lia. lia.
Qed.

Lemma outcome_bind {A} (c : M A) (f : A -> M outcome) (s : State) :
  (forall a s', exists b, val (f a s') = Returned b) ->
  exists b, val (bind c f s) = Returned b.
Proof. intros H. unfold bind. cbn [val]. apply H. Qed.

Lemma sendEchoRequest_returns (host : endian) (os : platform)
    (address p : Z) (allowFragment : bool) (env : SendEnv) (s : State) :
  0 <= rawPacketSizeOf p ->
  exists b,
    val (sendEchoRequest host os address p allowFragment env s) = Returned b.
Proof.
  intros Hsize. unfold sendEchoRequest.
  apply outcome_bind. intros sock s1.
  destruct (negb (isOpen sock)); [exists false; reflexivity|].
  replace (rawPacketSizeOf p <? 0) with false
    by (symmetry; apply Z.ltb_ge; exact Hsize).
  cbv zeta.
  do 8 (apply outcome_bind; intros ? ?).
  apply outcome_bind. intros ok s2.
  destruct ok; cbn [negb]; [|exists false; reflexivity].
  apply outcome_bind. intros ok s3. exists ok. reflexivity.
Qed.

Lemma int_le_bytes_le (w : nat) (v : Z) :
  int_le (bytes_le w v) = v mod 2 ^ (8 * Z.of_nat w).
Proof.
  revert v. induction w as [|w IH]; intros v.
  - cbn. rewrite Z.mod_1_r. reflexivity.
  - cbn [bytes_le int_le]. rewrite IH, Z.shiftr_div_pow2 by lia.
    replace (8 * Z.of_nat (S w)) with (8 + 8 * Z.of_nat w) by lia.
    rewrite Z.pow_add_r by lia.
    rewrite Z.rem_mul_r by (try lia; apply Z.pow_pos_nonneg; lia).
    unfold u8. reflexivity.
Qed.

Lemma int_of_bytes_of (host : endian) (w : nat) (v : Z) :
  int_of host (bytes_of host w v) = v mod 2 ^ (8 * Z.of_nat w).
Proof.
  destruct host; cbn [int_of bytes_of]; rewrite ?rev_involutive;
    apply int_le_bytes_le.
Qed.

Lemma peekn_pokeBytes (m : list Z) (off : Z) (bs : list Z) :
  0 <= off -> off + Z.of_nat (length bs) <= Z.of_nat (length m) ->
  peekn (pokeBytes m off bs) off (length bs) = map u8 bs.
Proof.
  revert m off. induction bs as [|b bs IH]; intros m off H0 H1; [reflexivity|].
  cbn [length] in H1. cbn [pokeBytes length peekn map]. f_equal.
  - rewrite peek_pokeBytes_outside by lia.
    rewrite peek_poke, Z.eqb_refl.
    replace (0 <=? off) with true by (symmetry; apply Z.leb_le; lia).
    replace (off <? Z.of_nat (length m)) with true
      by (symmetry; apply Z.ltb_lt; lia).
    reflexivity.
  - apply IH; [lia | rewrite length_poke; lia].
Qed.

Lemma peekn_bytes_of (host : endian) (m : list Z) (off : Z) (w : nat) (v : Z) :
  0 <= off -> off + Z.of_nat w <= Z.of_nat (length m) ->
  peekn (pokeBytes m off (bytes_of host w v)) off w = bytes_of host w v.
Proof.
  intros H0 H1.
  rewrite <- (length_bytes_of host w v) at 2.
  rewrite peekn_pokeBytes by (rewrite ?length_bytes_of; lia).
  apply map_u8_bytes_of.
Qed.

Lemma header_fields_zero (host : endian) (self : PosixPing) (address N : Z) :
  let h := ipHeader host self address N ++ icmpHeader host self in
  peek h 1 = 0 /\ peekn h 6 2 = [0; 0] /\ peekn h 10 2 = [0; 0] /\
  peekn h 12 4 = [0; 0; 0; 0].
Proof. destruct host; repeat split; reflexivity. Qed.

Lemma peek_fillBytes_at (packet : Z) (n : nat) :
  forall (m : list Z) (i j : Z),
  0 <= packet + (IcmpEcho.sizeof + i) ->
  packet + (IcmpEcho.sizeof + i) + Z.of_nat n <= Z.of_nat (length m) ->
  i <= j < i + Z.of_nat n ->
  peek (fillBytes m packet i n) (packet + (IcmpEcho.sizeof + j)) = u8 j.
Proof.
  unfold IcmpEcho.sizeof.
  induction n as [|n IH]; intros m i j H0 H1 Hj; [lia|].
  cbn [fillBytes]. unfold IcmpEcho.sizeof.
  destruct (Z.eq_dec j i) as [->|Hne].
  - rewrite peek_fillBytes_below by (unfold IcmpEcho.sizeof; lia).
    rewrite peek_poke, Z.eqb_refl.
    replace (0 <=? packet + (8 + i)) with true
      by (symmetry; apply Z.leb_le; lia).
    replace (packet + (8 + i) <? Z.of_nat (length m)) with true
      by (symmetry; apply Z.ltb_lt; lia).
    reflexivity.
  - apply IH; rewrite ?length_poke; lia.
Qed.

Lemma rawPacket_sequence (host : endian) (os : platform) (self : PosixPing)
    (c : SendCall) :
  isOpen (_icmpSocket self) = true ->
  0 <= payloadSize c <= INT_MAX - 28 ->
  0 <= _identifier self < 2 ^ 16 ->
  0 <= _nextSequence self < 2 ^ 16 ->
  let d := rawPacket (call host os self c) in
  forall listener,
  ntohs host (val (load host 2 (ip.sizeof + IcmpEcho.identifier)
                     (mkState listener d))) = _identifier self /\
  ntohs host (val (load host 2 (ip.sizeof + IcmpEcho.sequence)
                     (mkState listener d))) = _nextSequence self.
Proof.
  intros Hopen Hp Hid Hseq d listener. subst d.
  rewrite !load_spec. cbn [val buffer].
  change (ip.sizeof + IcmpEcho.identifier) with 24.
  change (ip.sizeof + IcmpEcho.sequence) with 26.
  pose proof (header_fields host self (address c) (28 + payloadSize c)) as F.
  cbv zeta in F.
  destruct F as (_ & _ & _ & _ & _ & _ & _ & _ & _ & _ & Fid & Fseq).
  split.
  - rewrite (peekn_ext _ (ipHeader host self (address c) (28 + payloadSize c)
                          ++ icmpHeader host self) 24 2).
    + rewrite Fid, int_of_bytes_of.
      change (2 ^ (8 * Z.of_nat 2)) with (2 ^ 16).
      rewrite Z.mod_small by (apply htons_range; exact Hid).
      apply ntohs_htons. exact Hid.
    + intros o Ho. apply rawPacket_header; (assumption || cbn in Ho; lia).
  - rewrite (peekn_ext _ (ipHeader host self (address c) (28 + payloadSize c)
                          ++ icmpHeader host self) 26 2).
    + rewrite Fseq, int_of_bytes_of.
      change (2 ^ (8 * Z.of_nat 2)) with (2 ^ 16).
      rewrite Z.mod_small by (apply htons_range; exact Hseq).
      apply ntohs_htons. exact Hseq.
    + intros o Ho. apply rawPacket_header; (assumption || cbn in Ho; lia).
Qed.

(** X9. The buffer size that does not fit.  On an open socket, for any [int]
    payload size, [rawPacket.resize] throws exactly when the payload size is
    below -28 (the [int] size is negative) or above [INT_MAX - 28] (the sum
    wraps to a negative [int]); and when it throws nothing has happened yet:
    the sequence number is not consumed, nothing is stored, logged or
    sent. *)
Theorem unsizable_payload_throws (host : endian) (os : platform)
    (self : PosixPing) (c : SendCall) :
  isOpen (_icmpSocket self) = true ->
  - 2 ^ 31 <= payloadSize c <= INT_MAX ->
  let r := call host os self c in
  (result r = Threw <->
   payloadSize c < -28 \/ INT_MAX - 28 < payloadSize c) /\
  (result r = Threw -> prober r = self /\ rawPacket r = [] /\ events r = []).
Proof.
  intros Hopen Hp r.
  pose proof (rawPacketSizeOf_negative (payloadSize c) Hp) as Hneg.
  destruct (Z.ltb_spec (rawPacketSizeOf (payloadSize c)) 0) as [Hlt|Hge].
  - assert (E : r = mkSendResult Threw self [] []).
    { subst r. unfold call, sendEchoRequest.
      rewrite (bind_run0 _ _ _ (_icmpSocket self) (mkState self [])
                 Threw (mkState self []) []); [reflexivity .. |].
      rewrite Hopen. cbn [negb].
      replace (rawPacketSizeOf (payloadSize c) <? 0) with true
        by (symmetry; apply Z.ltb_lt; exact Hlt).
      reflexivity. }
    rewrite E. cbn. split; [split; [intros _; apply Hneg, Hlt | reflexivity]|].
    intros _. repeat split.
  - destruct (sendEchoRequest_returns host os (address c) (payloadSize c)
                (allowFragment c) (env c) (mkState self []) Hge) as [b Hb].
    assert (E : result r = Returned b) by exact Hb.
    rewrite E. split; [split|]; try discriminate.
    intros H. apply Hneg in H. lia.
Qed.

Lemma unsizable_payload_throws_witness :
  let self := mkPosixPing 4660 7 (Fd 3) in
  let c := mkSendCall 167772161 (-29) true (mkSendEnv 1700000000 123456 0 60 0) in
  result (call LittleEndian Linux self c) = Threw.
Proof.
  intros self c.
  refine (proj2 (proj1 (unsizable_payload_throws LittleEndian Linux self c _ _))
            _).
  - reflexivity.
  - unfold INT_MAX. cbn. lia.
  - left. cbn. lia.
Defined.

(** X10. The remaining members of the IP header.  In the
    buffer when the call ends the type of service, the header checksum and
    the source address are zero (the kernel fills the last two in), and the
    fragment-offset member is zero when fragmentation is allowed, and
    otherwise [IP_DF], in network byte order on Linux and in host byte order
    on macOS. *)
Theorem fragment_flag_and_zero_fields (host : endian) (os : platform)
    (self : PosixPing) (c : SendCall) :
  isOpen (_icmpSocket self) = true ->
  0 <= payloadSize c <= INT_MAX - 28 ->
  let d := rawPacket (call host os self c) in
  let field w off := val (load host w off (mkState self d)) in
  peek d ip.ip_tos = 0 /\
  field 2%nat ip.ip_sum = 0 /\
  field 4%nat ip.ip_src = 0 /\
  field 2%nat ip.ip_off =
    (if allowFragment c then 0
     else match os with Linux => htons host IP_DF | Mac => IP_DF end) /\
  ntohs host (htons host IP_DF) = IP_DF.
Proof.
  intros Hopen Hp d field. subst field.
  destruct (header_fields_zero host self (address c) (28 + payloadSize c))
    as (Ftos & Foff & Fsum & Fsrc).
  unfold ip.ip_tos, ip.ip_sum, ip.ip_src, ip.ip_off.
  rewrite !load_spec. cbn [val buffer].
  assert (Hh : forall o, o < 6 \/ 8 <= o -> o < 22 \/ 24 <= o -> o < 28 ->
            peek d o = peek (ipHeader host self (address c) (28 + payloadSize c)
                             ++ icmpHeader host self) o).
  { intros o H1 H2 H3. subst d. apply rawPacket_header; assumption. }
  rewrite (Hh 1) by lia.
  rewrite (peekn_ext d _ 10 2 (fun o Ho => Hh o ltac:(lia) ltac:(lia) ltac:(lia))).
  rewrite (peekn_ext d _ 12 4 (fun o Ho => Hh o ltac:(lia) ltac:(lia) ltac:(lia))).
  rewrite Ftos, Fsum, Fsrc.
  split; [reflexivity|]. split; [destruct host; reflexivity|].
  split; [destruct host; reflexivity|]. split.
  - subst d. rewrite rawPacket_eq by assumption. cbv zeta.
    destruct (allowFragment c).
    + unfold checksummedPacket.
      rewrite (peekn_ext _ (ipHeader host self (address c) (28 + payloadSize c)
                            ++ icmpHeader host self) 6 2).
      * rewrite Foff. destruct host; reflexivity.
      * intros o Ho. rewrite peek_pokeBytes_outside
          by (rewrite length_bytes_of; lia).
        apply peek_builtPacket. lia.
    + rewrite peekn_bytes_of, int_of_bytes_of_2.
      * unfold dontFragmentFlag. apply u16_small.
        destruct os; [apply htons_range|]; unfold IP_DF; lia.
      * lia.
      * rewrite length_checksummedPacket by lia. lia.
  - apply ntohs_htons. unfold IP_DF. lia.
Qed.

Lemma fragment_flag_and_zero_fields_witness :
  let self := mkPosixPing 4660 7 (Fd 3) in
  let c := mkSendCall 167772161 32 false (mkSendEnv 1700000000 123456 0 60 0) in
  let d := rawPacket (call LittleEndian Linux self c) in
  val (load LittleEndian 2 ip.ip_off (mkState self d)) = 64.
Proof.
  intros self c.
  refine (proj1 (proj2 (proj2 (proj2
            (fragment_flag_and_zero_fields LittleEndian Linux self c _ _))))).
  - reflexivity.
  - unfold INT_MAX. cbn. lia.
Defined.

(** X11. Payload and timestamp.  When the payload has room for the two
    timestamp members, they hold [tv_sec] and [tv_usec] converted to
    [TimestampField] (64 bits on Linux, 32 on macOS) at the start of the
    payload, in host byte order, and every payload byte after them holds its
    own index within the payload, modulo 256. *)
Theorem payload_and_timestamp (host : endian) (os : platform)
    (self : PosixPing) (c : SendCall) :
  isOpen (_icmpSocket self) = true ->
  let ts := TimestampField os in
  2 * Z.of_nat ts <= payloadSize c <= INT_MAX - 28 ->
  let d := rawPacket (call host os self c) in
  let field off := val (load host ts off (mkState self d)) in
  let payload := ip.sizeof + IcmpEcho.sizeof in
  field payload = tv_sec (env c) mod 2 ^ (8 * Z.of_nat ts) /\
  field (payload + Z.of_nat ts) = tv_usec (env c) mod 2 ^ (8 * Z.of_nat ts) /\
  (forall i, 2 * Z.of_nat ts <= i < payloadSize c ->
     peek d (payload + i) = i mod 2 ^ 8).
Proof.
  intros Hopen ts Hp d field payload. subst field payload. cbv beta.
  change (ip.sizeof + IcmpEcho.sizeof) with 28.
  assert (Hts : 0 < Z.of_nat ts <= 8) by (subst ts; destruct os; cbn; lia).
  assert (Hp' : 0 <= payloadSize c <= INT_MAX - 28) by lia.
  rewrite !load_spec. cbn [val buffer].
  assert (Hd : forall o, 28 <= o ->
            peek d o = peek (builtPacket host os self (address c)
                               (payloadSize c) (env c)) o).
  { intros o Ho. subst d. apply rawPacket_peek; (assumption || lia). }
  set (b2 := fillBytes
               (ipHeader host self (address c) (28 + payloadSize c)
                ++ icmpHeader host self ++ repeat 0 (Z.to_nat (payloadSize c)))
               20 0 (Z.to_nat (payloadSize c))).
  assert (Hb2 : Z.of_nat (length b2) = 28 + payloadSize c).
  { subst b2. rewrite length_fillBytes, !length_app, length_ipHeader,
      length_icmpHeader, repeat_length. lia. }
  assert (Hbuilt : builtPacket host os self (address c) (payloadSize c) (env c)
                   = pokeBytes (pokeBytes b2 28 (bytes_of host ts (tv_sec (env c))))
                       (28 + Z.of_nat ts) (bytes_of host ts (tv_usec (env c))))
    by reflexivity.
  rewrite Hbuilt in Hd.
  split; [|split].
  - rewrite (peekn_ext d (pokeBytes b2 28 (bytes_of host ts (tv_sec (env c)))) 28 ts).
    + rewrite peekn_bytes_of by lia. apply int_of_bytes_of.
    + intros o Ho. rewrite Hd by lia. apply peek_pokeBytes_outside. lia.
  - rewrite (peekn_ext d _ (28 + Z.of_nat ts) ts (fun o Ho => Hd o ltac:(lia))).
    rewrite peekn_bytes_of by (rewrite ?length_pokeBytes; lia).
    apply int_of_bytes_of.
  - intros i Hi. rewrite Hd by lia.
    rewrite !peek_pokeBytes_outside by (rewrite length_bytes_of; lia).
    subst b2. replace (28 + i) with (20 + (IcmpEcho.sizeof + i))
      by (unfold IcmpEcho.sizeof; lia).
    rewrite peek_fillBytes_at.
    + reflexivity.
    + unfold IcmpEcho.sizeof. lia.
    + rewrite !length_app, length_ipHeader, length_icmpHeader, repeat_length.
      unfold IcmpEcho.sizeof. lia.
    + lia.
Qed.

Lemma payload_and_timestamp_witness :
  let self := mkPosixPing 4660 7 (Fd 3) in
  let c := mkSendCall 167772161 32 true (mkSendEnv 1700000000 123456 0 60 0) in
  peek (rawPacket (call LittleEndian Linux self c)) (28 + 16) = 16.
Proof.
  intros self c.
  refine (proj2 (proj2 (payload_and_timestamp LittleEndian Linux self c _ _))
            16 _).
  - reflexivity.
  - unfold INT_MAX. cbn. lia.
  - cbn. lia.
Defined.

(** X12. The request validates.  The checksum that [sendEchoRequest] stores
    makes [calcChecksum] over the ICMP header and payload of the finished
    buffer, checksum member included, return zero: a receiver that
    validates as [onReadyRead] does accepts it.  This holds for every
    payload size, odd ones included, and on both hosts. *)
Theorem request_checksum_validates (host : endian) (os : platform)
    (self listener : PosixPing) (c : SendCall) :
  isOpen (_icmpSocket self) = true ->
  0 <= payloadSize c <= INT_MAX - 28 ->
  let d := rawPacket (call host os self c) in
  val (calcChecksum host ip.sizeof (IcmpEcho.sizeof + payloadSize c)
                    (mkState listener d)) = 0.
Proof.
  intros Hopen Hp d. subst d. rewrite calcChecksum_spec. cbn [val buffer].
  apply rawPacket_checksum; assumption.
Qed.

Lemma request_checksum_validates_witness :
  let self := mkPosixPing 4660 7 (Fd 3) in
  let c := mkSendCall 167772161 33 true (mkSendEnv 1700000000 123456 0 60 0) in
  let d := rawPacket (call LittleEndian Linux self c) in
  val (calcChecksum LittleEndian 20 41 (mkState self d)) = 0.
Proof.
  intros self c.
  refine (request_checksum_validates LittleEndian Linux self self c _ _).
  - reflexivity.
  - unfold INT_MAX. cbn. lia.
Defined.

(** X13. Every byte the call reads lies within the buffer it has sized:
    building and checksumming the packet never reads out of bounds,
    whatever the payload size. *)
Theorem send_reads_within_buffer (host : endian) (os : platform)
    (self : PosixPing) (c : SendCall) :
  isOpen (_icmpSocket self) = true ->
  0 <= payloadSize c <= INT_MAX - 28 ->
  let r := call host os self c in
  Forall (fun off => 0 <= off < Z.of_nat (length (rawPacket r)))
         (loads (events r)).
Proof.
  intros Hopen Hp r. subst r.
  rewrite length_rawPacket by assumption.
  rewrite (call_run host os self c Hopen Hp). cbn [events].
  destruct (sendTail_spec host os (address c) (28 + payloadSize c)
              (allowFragment c) (env c)
              (mkState (incremented self)
                 (checksummedPacket host os self (address c) (payloadSize c)
                    (env c))))
    as (_ & _ & _ & Hld & _).
  rewrite loads_app, loads_buildTrace, Hld, app_nil_r.
  apply Forall_app. split.
  - constructor; [lia | constructor; [lia | constructor]].
  - eapply Forall_impl; [|apply checksumLoads_bounds; lia].
    cbv beta. intros. lia.
Qed.

Lemma send_reads_within_buffer_witness :
  let self := mkPosixPing 4660 7 (Fd 3) in
  let c := mkSendCall 167772161 3 true (mkSendEnv 1700000000 123456 0 60 0) in
  let r := call LittleEndian Linux self c in
  Forall (fun off => 0 <= off < Z.of_nat (length (rawPacket r)))
         (loads (events r)).
Proof.
  intros self c.
  refine (send_reads_within_buffer LittleEndian Linux self c _ _).
  - reflexivity.
  - unfold INT_MAX. cbn. lia.
Defined.

(** X14. The result of a call that builds its packet.  It returns [true]
    exactly when the don't-fragment configuration went through (or was not
    asked for) and [sendto] reported the whole packet sent; otherwise it
    returns [false], it never throws.  [sendto] is called at most once:
    once, with the whole buffer and the address, when the don't-fragment
    configuration went through, and not at all when it failed. *)
Theorem send_outcome (host : endian) (os : platform) (self : PosixPing)
    (c : SendCall) :
  isOpen (_icmpSocket self) = true ->
  0 <= payloadSize c <= INT_MAX - 28 ->
  let r := call host os self c in
  (result r = Returned true <->
   dontFragmentOk os c = true /\ sent (env c) = 28 + payloadSize c) /\
  (result r = Returned true \/ result r = Returned false) /\
  datagrams (events r) =
    (if dontFragmentOk os c then [(rawPacket r, address c)] else []).
Proof.
  intros Hopen Hp r.
  pose proof (length_rawPacket host os self c Hopen Hp) as Hlen.
  subst r. rewrite (call_run host os self c Hopen Hp) in *.
  cbn [result events rawPacket] in *.
  destruct (sendTail_outcome host os (address c) (28 + payloadSize c)
              (allowFragment c) (env c)
              (mkState (incremented self)
                 (checksummedPacket host os self (address c) (payloadSize c)
                    (env c))))
    as (Hval & _ & Hdg).
  fold (dontFragmentOk os c) in Hval, Hdg.
  rewrite Hval, datagrams_app, datagrams_buildTrace, Hdg.
  rewrite (datagram_whole _ _ Hlen). cbn [app].
  split; [|split; [|reflexivity]].
  - destruct (dontFragmentOk os c); cbn [andb].
    + destruct (Z.ltb_spec (sent (env c)) 0) as [Hs|Hs],
        (Z.eqb_spec (sent (env c)) (28 + payloadSize c)) as [He|He];
        cbn [negb andb]; split; intros X;
        first [ discriminate X | reflexivity | split; [reflexivity | exact He]
              | destruct X as [_ X]; lia ].
    + split; [discriminate | intros [X _]; discriminate X].
  - destruct (dontFragmentOk os c && negb (sent (env c) <? 0)
              && (sent (env c) =? 28 + payloadSize c)); auto.
Qed.

Lemma send_outcome_witness :
  let self := mkPosixPing 4660 7 (Fd 3) in
  let c := mkSendCall 167772161 32 false (mkSendEnv 1700000000 123456 0 60 0) in
  result (call LittleEndian Linux self c) = Returned true.
Proof.
  intros self c.
  refine (proj2 (proj1 (send_outcome LittleEndian Linux self c _ _)) _).
  - reflexivity.
  - unfold INT_MAX. cbn. lia.
  - split; reflexivity.
Defined.

(** X15. What a call that builds its packet logs: nothing when it succeeds,
    and exactly one warning when it fails, by the first failure: the
    don't-fragment configuration; [sendto] failing with [EWOULDBLOCK];
    [sendto] failing with another error (logged with [errno]); a partial
    send (logged with the two sizes). *)
Theorem send_failure_logged (host : endian) (os : platform)
    (self : PosixPing) (c : SendCall) :
  isOpen (_icmpSocket self) = true ->
  0 <= payloadSize c <= INT_MAX - 28 ->
  let r := call host os self c in
  let e := env c in
  warnings (events r) =
    if negb (dontFragmentOk os c) then [SetDfFailed]
    else if sent e <? 0 then
      (if errno e =? EWOULDBLOCK os then [WouldHaveBlocked (address c)]
       else [SendFailed (address c) (errno e)])
    else if negb (sent e =? 28 + payloadSize c)
    then [PartialSend (sent e) (28 + payloadSize c) (address c)]
    else [].
Proof.
  intros Hopen Hp r e. subst r e.
  rewrite (call_run host os self c Hopen Hp). cbn [events].
  rewrite warnings_app, warnings_buildTrace. cbn [app].
  apply sendTail_outcome.
Qed.

Lemma send_failure_logged_witness :
  let self := mkPosixPing 4660 7 (Fd 3) in
  let c := mkSendCall 167772161 32 false
                      (mkSendEnv 1700000000 123456 1 (-1) 11) in
  warnings (events (call LittleEndian Linux self c)) = [SetDfFailed].
Proof.
  intros self c.
  refine (send_failure_logged LittleEndian Linux self c _ _).
  - reflexivity.
  - unfold INT_MAX. cbn. lia.
Defined.

(** X16. Consecutive sequence numbers.  Of a series of calls on one prober
    with an open socket, whatever the operating system answers to each, the
    packet built by the call number [i] (from 0) carries the identifier of
    the prober and the sequence number [_nextSequence + i] modulo 65536,
    both in network byte order. *)
Theorem sequence_numbers_consecutive (host : endian) (os : platform)
    (cs : list SendCall) :
  forall (self : PosixPing),
  isOpen (_icmpSocket self) = true ->
  0 <= _identifier self < 2 ^ 16 ->
  0 <= _nextSequence self < 2 ^ 16 ->
  Forall (fun c => 0 <= payloadSize c <= INT_MAX - 28) cs ->
  forall (i : nat) (r : SendResult),
  nth_error (fst (sendAll host os self cs)) i = Some r ->
  let field off := val (load host 2 off (mkState self (rawPacket r))) in
  ntohs host (field (ip.sizeof + IcmpEcho.identifier)) = _identifier self /\
  ntohs host (field (ip.sizeof + IcmpEcho.sequence)) =
    u16 (_nextSequence self + Z.of_nat i).
Proof.
  induction cs as [|c cs IH]; intros self Hopen Hid Hseq Hall i r Hr field;
    subst field; cbv beta.
  - destruct i; discriminate Hr.
  - inversion Hall as [|c' cs' Hc Hcs]; subst c' cs'.
    cbn [sendAll] in Hr.
    assert (Hreach : reachesConstruction self c = true).
    { unfold reachesConstruction. rewrite Hopen, rawPacketSizeOf_eq by exact Hc.
      cbn [andb]. apply andb_true_intro. split; apply Z.leb_le; lia. }
    rewrite (call_prober host os self c Hreach) in Hr.
    destruct (sendAll host os (incremented self) cs) as [rs final] eqn:E.
    cbn [fst] in Hr. destruct i as [|i].
    + cbn [nth_error] in Hr. injection Hr as <-.
      rewrite Z.add_0_r, u16_small by exact Hseq.
      apply rawPacket_sequence; assumption.
    + cbn [nth_error] in Hr.
      assert (Hrs : nth_error (fst (sendAll host os (incremented self) cs)) i
                    = Some r) by (rewrite E; exact Hr).
      specialize (IH (incremented self) Hopen Hid (u16_range _) Hcs i r Hrs).
      cbv zeta beta in IH. rewrite !load_spec in IH |- *.
      cbn [val buffer] in IH |- *.
      destruct IH as [IHid IHseq]. split; [exact IHid|].
      rewrite IHseq. cbn [incremented _nextSequence].
      unfold u16. rewrite Zplus_mod_idemp_l. f_equal. lia.
Qed.

Lemma sequence_numbers_consecutive_witness :
  let self := mkPosixPing 4660 65535 (Fd 3) in
  let ok := mkSendCall 167772161 32 true (mkSendEnv 1700000000 123456 0 60 0) in
  let failing := mkSendCall 167772161 8 false
                            (mkSendEnv 1700000000 123456 1 (-1) 11) in
  let r := call LittleEndian Linux (mkPosixPing 4660 0 (Fd 3)) ok in
  ntohs LittleEndian
    (val (load LittleEndian 2 (ip.sizeof + IcmpEcho.sequence)
            (mkState self (rawPacket r)))) = u16 (65535 + 1).
Proof.
  intros self ok failing r.
  refine (proj2 (sequence_numbers_consecutive LittleEndian Linux
                   [failing; ok] self _ _ _ _ 1%nat r _)).
  - reflexivity.
  - cbn. lia.
  - cbn. lia.
  - repeat constructor; unfold INT_MAX; cbn; lia.
  - reflexivity.
Defined.

(** ** sendEchoRequest and onReadyRead together *)

(** X17. A prober does not answer requests.  The packet that
    [sendEchoRequest] builds, handed to [onReadyRead] of any prober (of the
    sender itself too, whose identifier it carries), passes the length /
    version / protocol checks and the checksum validation and is then
    dropped silently, because its type is 8: no [receivedReply], no
    warning.  (The array of [onReadyRead] holds 2048 bytes, hence the bound
    on the payload.) *)
Theorem own_request_ignored (host : endian) (os : platform)
    (self listener : PosixPing) (c : SendCall) (errno : Z) :
  isOpen (_icmpSocket self) = true ->
  0 <= payloadSize c <= 2020 ->
  let d := rawPacket (call host os self c) in
  let t := receive host listener d (28 + payloadSize c) errno in
  replies t = [] /\ warnings t = [].
Proof.
  intros Hopen Hp d t.
  assert (Hp' : 0 <= payloadSize c <= INT_MAX - 28) by (unfold INT_MAX; lia).
  destruct (rawPacket_passesChecks host os self c Hopen Hp')
    as (Hhl & Hpass & Htype). fold d in Hhl, Hpass, Htype.
  subst t. rewrite receive_passing by (lia || exact Hpass).
  rewrite replies_app, warnings_app, replies_inspected, warnings_inspected.
  rewrite Htype. cbn [Z.eqb andb replies warnings flat_map app].
  split; [reflexivity|].
  unfold icmpChecksumResult. rewrite Hhl, calcChecksum_spec. cbn [val buffer].
  replace (28 + payloadSize c - 20) with (8 + payloadSize c) by lia.
  subst d. rewrite rawPacket_checksum by assumption. reflexivity.
Qed.

Lemma own_request_ignored_witness :
  let self := mkPosixPing 4660 7 (Fd 3) in
  let c := mkSendCall 167772161 32 true (mkSendEnv 1700000000 123456 0 60 0) in
  let d := rawPacket (call LittleEndian Linux self c) in
  replies (receive LittleEndian self d 60 0) = [].
Proof.
  intros self c.
  refine (proj1 (own_request_ignored LittleEndian Linux self self c 0 _ _)).
  - reflexivity.
  - cbn. lia.
Defined.
